(** * Company batch-upsert service: the middleware package and its store

    A shallow embedding of [package middleware] (the batch processor that
    sits between the HTTP handlers of [main.go] and a MongoDB collection):
    [NewBatchProcessor], [ProcessBatch], [UpdateTreatedField] and
    [FetchAllCompanies].

    The Go functions talk to the collection through the driver's calls
    ([BulkWrite], [UpdateOne], [Find], ...).  They are embedded as programs
    of a small free monad over those calls, so that a function is exactly
    the sequence of driver calls it issues, and can be run against any
    implementation of the calls.  Statements about what the functions
    return for a given driver response hold for every such implementation;
    statements about the stored documents are made over a reference
    semantics of the collection (equality filters, [$set], upsert, unique
    indexes, ordered and unordered bulk execution, sorted find). *)

From Stdlib Require Import ZArith Lia.
From stdpp Require Import base option list gmap strings sorting.

Local Open Scope Z_scope.

(** ** BSON values and documents *)

(** The values this package stores: strings and booleans. *)
Inductive Value : Type :=
  | VString (s : string)
  | VBool (b : bool).

#[global] Instance Value_eq_dec : EqDecision Value.
Proof. solve_decision. Defined.

(** [bson.M]: an unordered map from field names to values. *)
Abbreviation Document := (gmap string Value).

(** An update document [bson.M{"$set": bson.M{...}}]: update operators
    mapped to the fields they act on. *)
Abbreviation UpdateDocument := (gmap string (gmap string Value)).

(** Go's [error], rendered as its message; [None] is [nil]. *)
Definition error : Type := string.

(** [fmt.Errorf(prefix + "%v", cause)] and [fmt.Errorf(prefix + "%s", s)]. *)
Definition Errorf (prefix : string) (cause : string) : error :=
  prefix +:+ cause.

(** ** The entity *)

Record Company : Type := mkCompany {
  Name : string;      (* bson:"name" *)
  Address : string;   (* bson:"address" *)
  Treated : bool      (* bson:"treated" *)
}.

#[global] Instance Company_eq_dec : EqDecision Company.
Proof. solve_decision. Defined.

(** ** Driver types *)

(** [mongo.UpdateOneModel], with the builder the code uses. *)
Record UpdateOneModel : Type := mkUpdateOneModel {
  Filter : Document;
  Update : UpdateDocument;
  Upsert : option bool
}.

Definition NewUpdateOneModel : UpdateOneModel :=
  {| Filter := ∅; Update := ∅; Upsert := None |}.
Definition SetFilter (f : Document) (m : UpdateOneModel) : UpdateOneModel :=
  {| Filter := f; Update := Update m; Upsert := Upsert m |}.
Definition SetUpdate (u : UpdateDocument) (m : UpdateOneModel) : UpdateOneModel :=
  {| Filter := Filter m; Update := u; Upsert := Upsert m |}.
Definition SetUpsert (b : bool) (m : UpdateOneModel) : UpdateOneModel :=
  {| Filter := Filter m; Update := Update m; Upsert := Some b |}.

#[global] Instance UpdateOneModel_eq_dec : EqDecision UpdateOneModel.
Proof. solve_decision. Defined.

(** [options.BulkWriteOptions]; [options.BulkWrite()] starts ordered. *)
Record BulkWriteOptions : Type := { Ordered : bool }.
Definition options_BulkWrite : BulkWriteOptions := {| Ordered := true |}.
Definition SetOrdered (b : bool) (o : BulkWriteOptions) : BulkWriteOptions :=
  {| Ordered := b |}.

(** [options.FindOptions]: the sort specification, a [bson.D]. *)
Record FindOptions : Type := { Sort : list (string * Z) }.
Definition options_Find : FindOptions := {| Sort := [] |}.
Definition SetSort (d : list (string * Z)) (o : FindOptions) : FindOptions :=
  {| Sort := d |}.

(** [mongo.IndexModel] with the two index options the code sets. *)
Record IndexModel : Type := {
  Keys : list (string * Z);
  Unique : bool;
  Background : bool
}.

(** [options.ClientOptions], as far as the code configures them
    (timeouts in seconds). *)
Record ClientOptions : Type := {
  URI : string;
  ConnectTimeout : Z;
  ServerSelectionTimeout : Z;
  MaxPoolSize : Z
}.

(** [mongo.BulkWriteResult] and [mongo.UpdateResult]; the counters are
    [int64]. *)
Module BulkWriteResult.
Record t : Type := mk {
  MatchedCount : Z;
  ModifiedCount : Z;
  UpsertedCount : Z
}.
Definition zero : t := mk 0 0 0.
End BulkWriteResult.

Module UpdateResult.
Record t : Type := mk {
  MatchedCount : Z;
  ModifiedCount : Z;
  UpsertedCount : Z
}.
Definition zero : t := mk 0 0 0.
End UpdateResult.

(** A cursor over the documents a query selected, in result order. *)
Definition Cursor : Type := list Document.

(** Arguments of a [log.Printf]. *)
Inductive Arg : Type :=
  | AInt (z : Z)
  | AStr (s : string).

(** ** Machine integers *)

(** Sum of two [int64], wrapping around as Go does. *)
Definition wrap64 (z : Z) : Z := (z + 2^63) mod 2^64 - 2^63.
Definition add64 (a b : Z) : Z := wrap64 (a + b).

(** [int(x)] for an [int64] [x]; [int] is 64 bits wide on the platforms the
    server is built for. *)
Definition int_of_int64 (x : Z) : Z := wrap64 x.

(** ** Programs over the driver *)

(** The calls the package makes, indexed by what they return. *)
Inductive Call : Type → Type :=
  | Connect (opts : ClientOptions) : Call (option error)
  | Ping : Call (option error)
  | CreateOne (model : IndexModel) : Call (option error)
  | BulkWrite (models : list UpdateOneModel) (opts : BulkWriteOptions) :
      Call (BulkWriteResult.t * option error)
  | UpdateOne (filter : Document) (update : UpdateDocument) :
      Call (UpdateResult.t * option error)
  | Find (filter : Document) (opts : FindOptions) :
      Call (Cursor * option error)
  | CursorClose (cursor : Cursor) : Call unit
  | Disconnect : Call (option error)
  | Printf (format : string) (args : list Arg) : Call unit.

Inductive Prog (A : Type) : Type :=
  | Ret (a : A)
  | Do {X : Type} (c : Call X) (k : X → Prog A).
Arguments Ret {A} a.
Arguments Do {A X} c k.

Fixpoint bind {A B : Type} (p : Prog A) (f : A → Prog B) : Prog B :=
  match p with
  | Ret a => f a
  | Do c k => Do c (λ x, bind (k x) f)
  end.

Definition call {X : Type} (c : Call X) : Prog X := Do c Ret.

#[global] Instance Prog_ret : MRet Prog := @Ret.
#[global] Instance Prog_bind : MBind Prog := λ A B f p, bind p f.

(** ** package middleware *)

(** The upsert instruction built in the loop of [ProcessBatch]. *)
Definition operation_of (company : Company) : UpdateOneModel :=
  SetUpsert true
    (SetUpdate {[ "$set" := {[ "name" := VString (Name company);
                               "address" := VString (Address company);
                               "treated" := VBool (Treated company) ]} ]}
      (SetFilter {[ "name" := VString (Name company) ]}
        NewUpdateOneModel)).

(** [ProcessBatch] processes and stores a batch of companies. *)
Definition ProcessBatch (companies : list Company) : Prog (Z * option error) :=
  if decide (length companies = 0%nat) then mret (0, None) else
  let operations :=
    foldl (λ operations company, operations ++ [operation_of company])
          [] companies in
  let opts := SetOrdered false options_BulkWrite in
  '(result, err) ← call (BulkWrite operations opts);
  match err with
  | Some err => mret (0, Some (Errorf "failed to process batch: " err))
  | None =>
      let totalModified :=
        int_of_int64 (add64 (BulkWriteResult.ModifiedCount result)
                            (BulkWriteResult.UpsertedCount result)) in
      _ ← call (Printf "Processed %d companies (Modified: %d, Upserted: %d)"
                  [AInt totalModified;
                   AInt (BulkWriteResult.ModifiedCount result);
                   AInt (BulkWriteResult.UpsertedCount result)]);
      mret (totalModified, None)
  end.

(** [UpdateTreatedField] updates the 'treated' field of a company by name. *)
Definition UpdateTreatedField (companyName : string) : Prog (option error) :=
  let filter : Document := {[ "name" := VString companyName ]} in
  let update : UpdateDocument := {[ "$set" := {[ "treated" := VBool true ]} ]} in
  '(result, err) ← call (UpdateOne filter update);
  match err with
  | Some err => mret (Some (Errorf "failed to update treated field: " err))
  | None =>
      if decide (UpdateResult.MatchedCount result = 0) then
        mret (Some (Errorf "company not found: " companyName))
      else if decide (UpdateResult.ModifiedCount result = 0) then
        mret (Some (Errorf "company found but no update performed: " companyName))
      else
        _ ← call (Printf "Updated treated field for company: %s" [AStr companyName]);
        mret None
  end.

(** Decoding one field of a document into a Go struct field: a missing
    field leaves the zero value, a value of another type is an error. *)
Definition decode_string (key : string) (d : Document) : error + string :=
  match d !! key with
  | None => inr ""
  | Some (VString s) => inr s
  | Some (VBool _) =>
      inl ("error decoding key " +:+ key +:+ ": cannot decode boolean into a string type")
  end.

Definition decode_bool (key : string) (d : Document) : error + bool :=
  match d !! key with
  | None => inr false
  | Some (VBool b) => inr b
  | Some (VString _) =>
      inl ("error decoding key " +:+ key +:+ ": cannot decode string into a boolean")
  end.

(** The three fields of the struct.  A [bson.M] keeps no order of its
    fields, so when more than one field has a value of the wrong type the
    error names the first of them in the order of the struct; which field
    the message names is not relied on. *)
Definition decode_Company (d : Document) : error + Company :=
  match decode_string "name" d with
  | inl e => inl e
  | inr n =>
      match decode_string "address" d with
      | inl e => inl e
      | inr a =>
          match decode_bool "treated" d with
          | inl e => inl e
          | inr t => inr (mkCompany n a t)
          end
      end
  end.

(** [cursor.All(ctx, &companies)]: decode every document, stop at the first
    that does not decode. *)
Fixpoint cursor_All (cursor : Cursor) : error + list Company :=
  match cursor with
  | [] => inr []
  | d :: rest =>
      match decode_Company d with
      | inl e => inl e
      | inr c =>
          match cursor_All rest with
          | inl e => inl e
          | inr cs => inr (c :: cs)
          end
      end
  end.

(** [FetchAllCompanies] retrieves all companies from the database.  The
    deferred [cursor.Close] runs on both paths that leave the function
    after the cursor was obtained. *)
Definition FetchAllCompanies : Prog (list Company * option error) :=
  let opts := SetSort [("name", 1)] options_Find in
  '(cursor, err) ← call (Find ∅ opts);
  match err with
  | Some err => mret ([], Some (Errorf "failed to fetch companies: " err))
  | None =>
      match cursor_All cursor with
      | inl err =>
          _ ← call (CursorClose cursor);
          mret ([], Some (Errorf "failed to decode companies: " err))
      | inr companies =>
          _ ← call (CursorClose cursor);
          mret (companies, None)
      end
  end.

(** [NewBatchProcessor] connects, pings and creates the unique index on
    [name]; [None] stands for the processor it returns on success.  The
    pool is sized at twice the number of workers. *)
Definition NewBatchProcessor (uri : string) (batchSize numWorkers : Z) :
    Prog (option error) :=
  let clientOptions :=
    {| URI := uri; ConnectTimeout := 5; ServerSelectionTimeout := 5;
       MaxPoolSize := (numWorkers * 2) mod 2^64 |} in
  err ← call (Connect clientOptions);
  match err with
  | Some err => mret (Some (Errorf "failed to connect to MongoDB: " err))
  | None =>
      err ← call Ping;
      match err with
      | Some err => mret (Some (Errorf "failed to ping MongoDB: " err))
      | None =>
          err ← call (CreateOne {| Keys := [("name", 1)];
                                   Unique := true; Background := true |});
          match err with
          | Some err => mret (Some (Errorf "failed to create index: " err))
          | None => mret None
          end
      end
  end.

(** [HealthCheck] pings the primary; [Close] disconnects the client. *)
Definition HealthCheck : Prog (option error) := call Ping.
Definition Close : Prog (option error) := call Disconnect.

(** ** Running a program against an implementation of the calls *)

(** A call that was issued, whatever it returned. *)
Inductive Event : Type :=
  | Called {X : Type} (c : Call X).

(** The calls that reach the collection (everything but the log). *)
Definition is_store_call (e : Event) : bool :=
  match e with
  | Called (Printf _ _) => false
  | Called _ => true
  end.

Section interp.
Context {S : Type} (handler : ∀ X, Call X → S → X * S).

(** Runs [p] from state [s]: the value returned, the final state and the
    calls issued, in order. *)
Fixpoint interp {A : Type} (p : Prog A) (s : S) : A * S * list Event :=
  match p with
  | Ret a => (a, s, [])
  | Do c k =>
      let '(x, s') := handler _ c s in
      let '(a, s'', tr) := interp (k x) s' in
      (a, s'', Called c :: tr)
  end.
End interp.

(** ** Reference semantics of the collection *)

(** Equality filter: every field of the filter occurs in the document with
    the same value; the empty filter selects every document. *)
Definition matches (filter d : Document) : Prop := filter ⊆ d.

#[global] Instance matches_dec filter d : Decision (matches filter d).
Proof. unfold matches. apply _. Defined.

(** A collection: its documents in natural (insertion) order and the
    fields that carry a unique index.  The [_id] the server generates for
    an inserted document is left out: no operation of the package reads or
    writes it. *)
Record Collection : Type := mkCollection {
  docs : list Document;
  indexes : list string
}.

#[global] Instance Collection_eq_dec : EqDecision Collection.
Proof. solve_decision. Defined.

(** What the store keeps between calls: the collection and the log the
    process has written. *)
Record World : Type := mkWorld {
  coll : Collection;
  logged : list (string * list Arg)
}.

(** The key of document [d] in the index on field [k]; a missing field is
    indexed as null, here [None]. *)
Definition index_key (k : string) (d : Document) : option Value := d !! k.

(** The first unique index that writing [d'] would violate: one whose key
    the write sets ([old] is the document being replaced, if any) to a
    value that another document already has. *)
Definition duplicate_key (idx : list string) (old : option Document)
    (others : list Document) (d' : Document) : option string :=
  snd <$> list_find
    (λ k, (index_key k <$> old) ≠ Some (index_key k d') ∧
          index_key k d' ∈ index_key k <$> others) idx.

Definition E11000 (k : string) : error :=
  "E11000 duplicate key error index: " +:+ k.

(** What a single update did. *)
Inductive Outcome : Type :=
  | Rejected (msg : error)        (* write error, nothing written *)
  | Matched (modified : bool)     (* a document matched; was it changed? *)
  | Inserted                      (* no match, document inserted by upsert *)
  | NoMatch.                      (* no match, no upsert *)

#[global] Instance Outcome_eq_dec : EqDecision Outcome.
Proof. solve_decision. Defined.

(** The order in which the server runs the operations of an unordered bulk
    write: any rearrangement of the submitted list. *)
Record Schedule : Type := mkSchedule {
  order : list UpdateOneModel → list UpdateOneModel;
  order_perm : ∀ l, order l ≡ₚ l
}.

Definition in_order : Schedule :=
  {| order := λ l, l; order_perm := λ l, reflexivity l |}.
Definition reversed : Schedule :=
  {| order := reverse; order_perm := reverse_Permutation |}.

Section store.
(** The store's own admission check on an operation (document size, key
    length, validation rules, ...): [Some msg] when it refuses it. *)
Variable rejects : UpdateOneModel → option error.

(** One update, with upsert: the first document the filter selects gets
    the [$set] fields; without a match and with [upsert] a document made
    of the filter's fields and the [$set] fields is appended. *)
Definition update_one (m : UpdateOneModel) (c : Collection) : Outcome * Collection :=
  match rejects m with
  | Some msg => (Rejected msg, c)
  | None =>
      match Update m !! "$set" with
      | None => (Rejected "update document must contain key beginning with '$'", c)
      | Some fields =>
          match list_find (matches (Filter m)) (docs c) with
          | Some (i, d) =>
              let d' := fields ∪ d in
              if decide (d' = d) then (Matched false, c)
              else
                match duplicate_key (indexes c) (Some d) (delete i (docs c)) d' with
                | Some k => (Rejected (E11000 k), c)
                | None =>
                    (Matched true,
                     {| docs := <[i := d']> (docs c); indexes := indexes c |})
                end
          | None =>
              if decide (Upsert m = Some true) then
                let d' := fields ∪ Filter m in
                match duplicate_key (indexes c) None (docs c) d' with
                | Some k => (Rejected (E11000 k), c)
                | None =>
                    (Inserted,
                     {| docs := docs c ++ [d']; indexes := indexes c |})
                end
              else (NoMatch, c)
          end
      end
  end.

(** Runs the operations one after the other.  An ordered run stops at the
    first operation that fails; an unordered run goes on with the rest. *)
Fixpoint execute (ordered : bool) (models : list UpdateOneModel)
    (c : Collection) : list Outcome * Collection :=
  match models with
  | [] => ([], c)
  | m :: rest =>
      let '(o, c') := update_one m c in
      match o with
      | Rejected _ =>
          if ordered then ([o], c')
          else let '(os, c'') := execute ordered rest c' in (o :: os, c'')
      | _ => let '(os, c'') := execute ordered rest c' in (o :: os, c'')
      end
  end.

Definition is_matched (o : Outcome) : bool :=
  match o with Matched _ => true | _ => false end.
Definition is_modified (o : Outcome) : bool :=
  match o with Matched true => true | _ => false end.
Definition is_inserted (o : Outcome) : bool :=
  match o with Inserted => true | _ => false end.
Definition write_error (o : Outcome) : option error :=
  match o with Rejected msg => Some msg | _ => None end.

Definition count (p : Outcome → bool) (os : list Outcome) : Z :=
  Z.of_nat (length (filter (λ o, p o = true) os)).

Definition bulk_result (os : list Outcome) : BulkWriteResult.t :=
  {| BulkWriteResult.MatchedCount := count is_matched os;
     BulkWriteResult.ModifiedCount := count is_modified os;
     BulkWriteResult.UpsertedCount := count is_inserted os |}.

(** A bulk write fails as a whole as soon as one operation failed; the
    error lists the write errors. *)
Definition bulk_error (os : list Outcome) : option error :=
  match omap write_error os with
  | [] => None
  | msgs =>
      Some ("bulk write exception: write errors: [" +:+
            String.concat ", " msgs +:+ "]")
  end.

Definition bulk_write (sch : Schedule) (models : list UpdateOneModel)
    (opts : BulkWriteOptions) (c : Collection) :
    (BulkWriteResult.t * option error) * Collection :=
  let submitted := if Ordered opts then models else order sch models in
  let '(os, c') := execute (Ordered opts) submitted c in
  ((bulk_result os, bulk_error os), c').

(** The result of a single update; a write error comes back as the
    driver's write exception. *)
Definition update_result (o : Outcome) : UpdateResult.t * option error :=
  match o with
  | Rejected msg =>
      (UpdateResult.zero,
       Some ("write exception: write errors: [" +:+ msg +:+ "]"))
  | Matched modified =>
      (UpdateResult.mk 1 (if modified then 1 else 0) 0, None)
  | Inserted => (UpdateResult.mk 0 0 1, None)
  | NoMatch => (UpdateResult.zero, None)
  end.

Definition collection_UpdateOne (filter : Document) (update : UpdateDocument)
    (c : Collection) : (UpdateResult.t * option error) * Collection :=
  let '(o, c') :=
    update_one {| Filter := filter; Update := update; Upsert := None |} c in
  (update_result o, c').
End store.

(** *** Sorted queries *)

(** BSON comparison order on index keys: null (a missing field) before
    strings before booleans; strings by their bytes, [false] before
    [true]. *)
Definition key_le (a b : option Value) : Prop :=
  match a, b with
  | None, _ => True
  | Some _, None => False
  | Some (VString s), Some (VString t) => String.le s t
  | Some (VString _), Some (VBool _) => True
  | Some (VBool _), Some (VString _) => False
  | Some (VBool x), Some (VBool y) => implb x y = true
  end.

#[global] Instance key_le_dec : RelDecision key_le.
Proof.
  intros [[s|x]|] [[t|y]|]; simpl; apply _.
Defined.

(** Order of two documents under a sort specification: the keys are
    compared in turn, ascending for a positive direction and descending
    otherwise; later keys decide between documents equal on the earlier
    ones. *)
Fixpoint doc_le (spec : list (string * Z)) (d1 d2 : Document) : Prop :=
  match spec with
  | [] => True
  | (k, dir) :: rest =>
      let a := if decide (0 < dir) then d1 !! k else d2 !! k in
      let b := if decide (0 < dir) then d2 !! k else d1 !! k in
      key_le a b ∧ (key_le b a → doc_le rest d1 d2)
  end.

#[global] Instance doc_le_dec spec : RelDecision (doc_le spec).
Proof.
  induction spec as [|[k dir] rest IH]; intros d1 d2; simpl; apply _.
Defined.

Definition collection_Find (query : Document) (opts : FindOptions)
    (c : Collection) : Cursor * option error :=
  (merge_sort (doc_le (Sort opts)) (filter (matches query) (docs c)), None).

(** *** Index creation *)

(** Creating a unique index on one field fails when two documents already
    share a key; creating an index that exists changes nothing. *)
Definition collection_CreateOne (model : IndexModel) (c : Collection) :
    option error * Collection :=
  match Keys model with
  | [(k, _)] =>
      if Unique model then
        if decide (NoDup (index_key k <$> docs c)) then
          (None,
           {| docs := docs c;
              indexes := if decide (k ∈ indexes c) then indexes c
                         else indexes c ++ [k] |})
        else (Some (E11000 k), c)
      else (None, c)
  | _ => (Some "index specification outside this model", c)
  end.

(** *** The store as an implementation of the calls *)

Section handle.
Variable rejects : UpdateOneModel → option error.
Variable sch : Schedule.

Definition handle (X : Type) (c : Call X) (w : World) : X * World :=
  match c in Call X return X * World with
  | Connect _ => (None, w)
  | Ping => (None, w)
  | Disconnect => (None, w)
  | CreateOne model =>
      let '(err, c') := collection_CreateOne model (coll w) in
      (err, {| coll := c'; logged := logged w |})
  | BulkWrite models opts =>
      let '(r, c') := bulk_write rejects sch models opts (coll w) in
      (r, {| coll := c'; logged := logged w |})
  | UpdateOne filter update =>
      let '(r, c') := collection_UpdateOne rejects filter update (coll w) in
      (r, {| coll := c'; logged := logged w |})
  | Find filter opts => (collection_Find filter opts (coll w), w)
  | CursorClose _ => ((), w)
  | Printf format args =>
      ((), {| coll := coll w; logged := logged w ++ [(format, args)] |})
  end.

(** Runs a program of the package against the store. *)
Definition run {A : Type} (p : Prog A) (w : World) : A * World * list Event :=
  interp handle p w.
End handle.

(** The value returned by a run and the collection it leaves. *)
Definition value_of {A : Type} (r : A * World * list Event) : A := r.1.1.
Definition coll_of {A : Type} (r : A * World * list Event) : Collection :=
  coll r.1.2.
Definition docs_of {A : Type} (r : A * World * list Event) : list Document :=
  docs (coll r.1.2).

(** A store that accepts every operation, and an empty collection. *)
Definition accept_all : UpdateOneModel → option error := λ _, None.
Definition empty_world : World :=
  {| coll := {| docs := []; indexes := [] |}; logged := [] |}.
Definition world_of (ds : list Document) (idx : list string) : World :=
  {| coll := {| docs := ds; indexes := idx |}; logged := [] |}.

(** The document of a company. *)
Definition company_doc (c : Company) : Document :=
  {[ "name" := VString (Name c);
     "address" := VString (Address c);
     "treated" := VBool (Treated c) ]}.

(** ** The operations of the package, as the server invokes them *)

Inductive Operation : Type :=
  | OpProcessBatch (companies : list Company) (sch : Schedule)
  | OpUpdateTreatedField (companyName : string)
  | OpFetchAllCompanies
  | OpHealthCheck.

(** The store after one operation; [sch] is the order the server picks for
    the bulk write of that call. *)
Definition perform (rejects : UpdateOneModel → option error)
    (w : World) (op : Operation) : World :=
  match op with
  | OpProcessBatch companies sch =>
      (run rejects sch (ProcessBatch companies) w).1.2
  | OpUpdateTreatedField companyName =>
      (run rejects in_order (UpdateTreatedField companyName) w).1.2
  | OpFetchAllCompanies => (run rejects in_order FetchAllCompanies w).1.2
  | OpHealthCheck => (run rejects in_order HealthCheck w).1.2
  end.

Definition history (rejects : UpdateOneModel → option error)
    (w : World) (ops : list Operation) : World :=
  foldl (perform rejects) w ops.

(** ** Notions the properties are stated with *)

(** The field [k] carries a unique index and no two documents share a key
    of it. *)
Definition unique_on (k : string) (c : Collection) : Prop :=
  k ∈ indexes c ∧ NoDup (index_key k <$> docs c).

(** The stored documents whose name is [n]. *)
Definition records_named (n : string) (c : Collection) : list Document :=
  filter (λ d, d !! "name" = Some (VString n)) (docs c).

(** The only unique index, if any, is the one on [name]. *)
Definition only_name_index (c : Collection) : Prop :=
  ∀ k, k ∈ indexes c → k = "name".

#[global] Instance only_name_index_dec c : Decision (only_name_index c).
Proof.
  refine (cast_if (decide (Forall (λ k, k = "name") (indexes c))));
    unfold only_name_index; rewrite Forall_forall in *; done.
Defined.

(** What [ProcessBatch] does once the bulk write has answered. *)
Definition after_BulkWrite (resp : BulkWriteResult.t * option error) :
    Prog (Z * option error) :=
  match resp.2 with
  | Some err => Ret (0, Some (Errorf "failed to process batch: " err))
  | None =>
      let total :=
        int_of_int64 (add64 (BulkWriteResult.ModifiedCount resp.1)
                            (BulkWriteResult.UpsertedCount resp.1)) in
      Do (Printf "Processed %d companies (Modified: %d, Upserted: %d)"
            [AInt total; AInt (BulkWriteResult.ModifiedCount resp.1);
             AInt (BulkWriteResult.UpsertedCount resp.1)])
         (λ _, Ret (total, None))
  end.


(** Companies in ascending order of their names, compared byte by byte. *)
Definition name_le (a b : Company) : Prop := String.le (Name a) (Name b).

(** A document decodes into a [Company]; [company_of] is the company it
    decodes into. *)
Definition decodable (d : Document) : Prop := ∃ c, decode_Company d = inr c.
Definition company_of (d : Document) : Company :=
  match decode_Company d with
  | inr c => c
  | inl _ => mkCompany "" "" false
  end.

(** The fields of a document that a [Company] reads have the types it
    expects, where they are present. *)
Definition string_field (k : string) (d : Document) : Prop :=
  match d !! k with Some (VBool _) => False | _ => True end.
Definition bool_field (k : string) (d : Document) : Prop :=
  match d !! k with Some (VString _) => False | _ => True end.
Definition typed (d : Document) : Prop :=
  string_field "name" d ∧ string_field "address" d ∧ bool_field "treated" d.

(** A document carries a record when it has the record's three fields. *)
Definition carries (d : Document) (r : Company) : Prop := company_doc r ⊆ d.

(** The outcomes of the operations of a batch, in the order the server
    ran them, and the collection they leave. *)
Definition batch_outcomes (rejects : UpdateOneModel → option error)
    (sch : Schedule) (companies : list Company) (c : Collection) :
    list Outcome :=
  (execute rejects false (order sch (operation_of <$> companies)) c).1.
Definition batch_collection (rejects : UpdateOneModel → option error)
    (sch : Schedule) (companies : list Company) (c : Collection) :
    Collection :=
  (execute rejects false (order sch (operation_of <$> companies)) c).2.

(** Some stored document carries an accepted record of [b] named [n]. *)
Definition applied (rejects : UpdateOneModel → option error)
    (b : list Company) (n : string) (c : Collection) : Prop :=
  ∃ d r, d ∈ docs c ∧ r ∈ b ∧ Name r = n ∧
         rejects (operation_of r) = None ∧ carries d r.

(** Nothing is left to do for record [r]: the store refuses its
    operation, or the document its filter selects carries it already. *)
Definition settled (rejects : UpdateOneModel → option error)
    (r : Company) (c : Collection) : Prop :=
  rejects (operation_of r) ≠ None ∨
  ∃ i d, list_find (matches {[ "name" := VString (Name r) ]}) (docs c)
           = Some (i, d) ∧ carries d r.

(** Some stored document has the name [n]. *)
Definition present (n : string) (c : Collection) : Prop :=
  ∃ d, d ∈ docs c ∧ d !! "name" = Some (VString n).

(** Two collections hold the same documents under the same indexes, and a
    filter on a name selects the same document in both: they differ at
    most in the positions of their documents. *)
Definition same_documents (c1 c2 : Collection) : Prop :=
  docs c1 ≡ₚ docs c2 ∧ indexes c1 = indexes c2 ∧
  ∀ n, snd <$> list_find (matches {[ "name" := VString n ]}) (docs c1)
       = snd <$> list_find (matches {[ "name" := VString n ]}) (docs c2).

(** An outcome that neither modified nor inserted a document. *)
Definition quiet (o : Outcome) : Prop :=
  is_modified o = false ∧ is_inserted o = false.

(** An update whose filter and [$set] fields have the types a [Company]
    expects. *)
Definition typed_model (m : UpdateOneModel) : Prop :=
  typed (Filter m) ∧ ∀ fields, Update m !! "$set" = Some fields → typed fields.

(** The update [UpdateTreatedField] sends for a name, as the store sees it. *)
Definition treated_update (companyName : string) : UpdateOneModel :=
  {| Filter := {[ "name" := VString companyName ]};
     Update := {[ "$set" := {[ "treated" := VBool true ]} ]};
     Upsert := None |}.

(** ** Sample data *)

Definition A_x : Company := mkCompany "A" "x" false.
Definition A_y : Company := mkCompany "A" "y" false.
Definition B_z : Company := mkCompany "B" "z" true.
Definition C_u : Company := mkCompany "C" "u" false.

(** A store that refuses the operations on the name ["B"]. *)
Definition rejects_B (m : UpdateOneModel) : option error :=
  if decide (Filter m !! "name" = Some (VString "B"))
  then Some "document failed validation" else None.

(** ** package main: the HTTP server *)

(** [err.Error()]: the message of an error. *)
Definition Error (err : error) : string := err.

(** [CompanyRequest], the body of a batch upload. *)
Record CompanyRequest : Type := { Companies : list Company }.

(** What the handlers put into the [Data interface{}] of an envelope: the
    companies read, or [map["processed_count"]] of a batch. *)
Inductive Payload : Type :=
  | DataCompanies (companies : list Company)
  | DataProcessedCount (processed_count : Z).

(** [APIResponse], the standard envelope. *)
Record APIResponse : Type := {
  Success : bool;
  Message : string;
  Data : option Payload
}.

Definition StatusOK : Z := 200.
Definition StatusBadRequest : Z := 400.
Definition StatusInternalServerError : Z := 500.
Definition StatusServiceUnavailable : Z := 503.

(** The [http.ResponseWriter] of a request: the headers set, the status
    line once it is written, and the envelopes encoded into the body. *)
Record ResponseWriter : Type := {
  Header : gmap string string;
  WroteHeader : option Z;
  Body : list APIResponse
}.

Definition new_ResponseWriter : ResponseWriter :=
  {| Header := ∅; WroteHeader := None; Body := [] |}.

(** [net/http] sends the status line on the first [WriteHeader] and ignores
    later ones; a body written before any status goes out under 200. *)
Definition ResponseWriter_WriteHeader (code : Z) (w : ResponseWriter) :
    ResponseWriter :=
  {| Header := Header w;
     WroteHeader := match WroteHeader w with
                    | Some c => Some c
                    | None => Some code
                    end;
     Body := Body w |}.

Definition ResponseWriter_Write (response : APIResponse) (w : ResponseWriter) :
    ResponseWriter :=
  {| Header := Header w;
     WroteHeader := match WroteHeader w with
                    | Some c => Some c
                    | None => Some StatusOK
                    end;
     Body := Body w ++ [response] |}.

(** [responseWriter] wraps [http.ResponseWriter] to capture the status
    code. *)
Record responseWriter : Type := {
  inner : ResponseWriter;
  status : Z
}.

Definition wrapResponseWriter (w : ResponseWriter) : responseWriter :=
  {| inner := w; status := StatusOK |}.

Definition WriteHeader (code : Z) (rw : responseWriter) : responseWriter :=
  {| inner := ResponseWriter_WriteHeader code (inner rw); status := code |}.

(** The promoted methods of the embedded writer. *)
Definition Header_Set (key value : string) (rw : responseWriter) : responseWriter :=
  {| inner := {| Header := <[key := value]> (Header (inner rw));
                 WroteHeader := WroteHeader (inner rw);
                 Body := Body (inner rw) |};
     status := status rw |}.

Definition Write (response : APIResponse) (rw : responseWriter) : responseWriter :=
  {| inner := ResponseWriter_Write response (inner rw); status := status rw |}.

(** What a handler reads of a request: the method and path, the value
    [r.URL.Query().Get("name")] gives (empty when the parameter is
    absent), and what decoding the JSON body into a [CompanyRequest]
    gives. *)
Record Request : Type := {
  Method : string;
  URLPath : string;
  QueryName : string;
  Decoded : error + CompanyRequest
}.

Section server.
(** The verdict of [json.NewEncoder(w).Encode] on an envelope: [None] when
    it was written, the error otherwise. *)
Variable encode : APIResponse → option error.

(** [sendResponse] sends a JSON response. *)
Definition sendResponse (w : responseWriter) (code : Z) (response : APIResponse) :
    Prog responseWriter :=
  let w := Header_Set "Content-Type" "application/json" w in
  let w := WriteHeader code w in
  match encode response with
  | Some err =>
      _ ← call (Printf "Error encoding response: %v" [AStr err]);
      mret w
  | None => mret (Write response w)
  end.

(** The handlers.  Each takes the writer, the request and the [healthy]
    flag of the server, and gives the writer and the flag back. *)

(** [fetchAllCompaniesHandler] fetches all companies. *)
Definition fetchAllCompaniesHandler (w : responseWriter) (r : Request)
    (healthy : bool) : Prog (responseWriter * bool) :=
  '(companies, err) ← FetchAllCompanies;
  match err with
  | Some err =>
      w ← sendResponse w StatusInternalServerError
            {| Success := false;
               Message := "Failed to fetch companies: " +:+ Error err;
               Data := None |};
      mret (w, healthy)
  | None =>
      w ← sendResponse w StatusOK
            {| Success := true;
               Message := "Companies fetched successfully";
               Data := Some (DataCompanies companies) |};
      mret (w, healthy)
  end.

(** [healthCheckHandler] performs a health check. *)
Definition healthCheckHandler (w : responseWriter) (r : Request)
    (healthy : bool) : Prog (responseWriter * bool) :=
  err ← HealthCheck;
  match err with
  | Some err =>
      w ← sendResponse w StatusServiceUnavailable
            {| Success := false;
               Message := "Service unhealthy: " +:+ Error err;
               Data := None |};
      mret (w, false)
  | None =>
      w ← sendResponse w StatusOK
            {| Success := true; Message := "Service healthy"; Data := None |};
      mret (w, true)
  end.

(** [batchUploadHandler] processes a batch of company data. *)
Definition batchUploadHandler (w : responseWriter) (r : Request)
    (healthy : bool) : Prog (responseWriter * bool) :=
  if negb healthy then
    w ← sendResponse w StatusServiceUnavailable
          {| Success := false; Message := "Service is not healthy"; Data := None |};
    mret (w, healthy)
  else
    match Decoded r with
    | inl err =>
        w ← sendResponse w StatusBadRequest
              {| Success := false;
                 Message := "Invalid request body: " +:+ Error err;
                 Data := None |};
        mret (w, healthy)
    | inr req =>
        if decide (length (Companies req) = 0%nat) then
          w ← sendResponse w StatusBadRequest
                {| Success := false; Message := "No companies provided";
                   Data := None |};
          mret (w, healthy)
        else
          '(processedCount, err) ← ProcessBatch (Companies req);
          match err with
          | Some err =>
              w ← sendResponse w StatusInternalServerError
                    {| Success := false;
                       Message := "Failed to process batch: " +:+ Error err;
                       Data := None |};
              mret (w, healthy)
          | None =>
              w ← sendResponse w StatusOK
                    {| Success := true;
                       Message := "Batch processed successfully";
                       Data := Some (DataProcessedCount processedCount) |};
              mret (w, healthy)
          end
    end.

(** [updateTreatedHandler] updates the treated status for a company. *)
Definition updateTreatedHandler (w : responseWriter) (r : Request)
    (healthy : bool) : Prog (responseWriter * bool) :=
  let companyName := QueryName r in
  if decide (companyName = "") then
    w ← sendResponse w StatusBadRequest
          {| Success := false; Message := "Company name is required";
             Data := None |};
    mret (w, healthy)
  else
    err ← UpdateTreatedField companyName;
    match err with
    | Some err =>
        w ← sendResponse w StatusInternalServerError
              {| Success := false;
                 Message := "Failed to update treated field: " +:+ Error err;
                 Data := None |};
        mret (w, healthy)
    | None =>
        w ← sendResponse w StatusOK
              {| Success := true;
                 Message := "Company treated field updated successfully";
                 Data := None |};
        mret (w, healthy)
    end.

(** [loggingMiddleware] logs each request with timing information;
    [elapsed] is what [time.Since(start)] reads when the handler is back. *)
Definition loggingMiddleware
    (next : responseWriter → Request → bool → Prog (responseWriter * bool))
    (elapsed : Z) (w : ResponseWriter) (r : Request) (healthy : bool) :
    Prog (responseWriter * bool) :=
  _ ← call (Printf "Started %s %s" [AStr (Method r); AStr (URLPath r)]);
  let wrapped := wrapResponseWriter w in
  '(wrapped, healthy) ← next wrapped r healthy;
  _ ← call (Printf "Completed %s %s [%d] in %v"
              [AStr (Method r); AStr (URLPath r); AInt (status wrapped);
               AInt elapsed]);
  mret (wrapped, healthy).

(** The routes of [setupRoutes]: the handler registered for a method and
    path, if any. *)
Definition route (r : Request) :
    option (responseWriter → Request → bool → Prog (responseWriter * bool)) :=
  if decide (URLPath r = "/health" ∧ Method r = "GET") then
    Some healthCheckHandler
  else if decide (URLPath r = "/api/v1/companies/batch" ∧ Method r = "POST") then
    Some batchUploadHandler
  else if decide (URLPath r = "/api/v1/companies" ∧ Method r = "GET") then
    Some fetchAllCompaniesHandler
  else if decide (URLPath r = "/api/v1/companies/update-treated" ∧ Method r = "PUT") then
    Some updateTreatedHandler
  else None.

(** A request that matches a route goes through the logging middleware
    into its handler. *)
Definition serve (elapsed : Z) (w : ResponseWriter) (r : Request) (healthy : bool) :
    option (Prog (responseWriter * bool)) :=
  (λ h, loggingMiddleware h elapsed w r healthy) <$> route r.
End server.

(** [NewServer] starts with the flag set. *)
Definition NewServer_healthy : bool := true.

(** A store that cannot be reached: every call that goes to it fails. *)
Definition unreachable (X : Type) (c : Call X) (s : unit) : X * unit :=
  match c in Call X return X * unit with
  | Connect _ => (Some "server selection timeout", s)
  | Ping => (Some "server selection timeout", s)
  | Disconnect => (Some "server selection timeout", s)
  | CreateOne _ => (Some "server selection timeout", s)
  | BulkWrite _ _ => ((BulkWriteResult.zero, Some "server selection timeout"), s)
  | UpdateOne _ _ => ((UpdateResult.zero, Some "server selection timeout"), s)
  | Find _ _ => (([], Some "server selection timeout"), s)
  | CursorClose _ => ((), s)
  | Printf _ _ => ((), s)
  end.

(** A store whose single updates are applied and then reported as failed
    (the acknowledgement does not arrive before the deadline): the
    reference store, but [UpdateOne] returns an error after the write. *)
Definition acknowledges_late (X : Type) (c : Call X) (w : World) : X * World :=
  match c in Call X return X * World with
  | UpdateOne filter update =>
      let '(_, w') := handle accept_all in_order _ (UpdateOne filter update) w in
      ((UpdateResult.zero, Some "context deadline exceeded"), w')
  | Connect opts => handle accept_all in_order _ (Connect opts) w
  | Ping => handle accept_all in_order _ Ping w
  | Disconnect => handle accept_all in_order _ Disconnect w
  | CreateOne model => handle accept_all in_order _ (CreateOne model) w
  | BulkWrite models opts => handle accept_all in_order _ (BulkWrite models opts) w
  | Find filter opts => handle accept_all in_order _ (Find filter opts) w
  | CursorClose cursor => handle accept_all in_order _ (CursorClose cursor) w
  | Printf format args => handle accept_all in_order _ (Printf format args) w
  end.

(** An encoder that writes every envelope. *)
Definition encode_all : APIResponse → option error := λ _, None.

(** The log lines among the calls of a run, and the calls that reach the
    store. *)
Definition is_log (e : Event) : bool :=
  match e with
  | Called (Printf _ _) => true
  | Called _ => false
  end.

Definition store_calls (tr : list Event) : list Event :=
  filter (λ e, is_store_call e = true) tr.

(** The writer after [sendResponse]. *)
Definition sent (encode : APIResponse → option error)
    (w : responseWriter) (code : Z) (response : APIResponse) : responseWriter :=
  let w := WriteHeader code (Header_Set "Content-Type" "application/json" w) in
  match encode response with
  | Some _ => w
  | None => Write response w
  end.

(** A writer that carries exactly one response: one status line, equal to
    the status captured, one of the four the handlers use; the JSON
    content type; and one envelope, successful exactly under 200 (absent
    from the body only if the encoder failed on it). *)
Definition answered_once (encode : APIResponse → option error)
    (rw : responseWriter) : Prop :=
  WroteHeader (inner rw) = Some (status rw) ∧
  Header (inner rw) !! "Content-Type" = Some "application/json" ∧
  status rw ∈ [StatusOK; StatusBadRequest; StatusInternalServerError;
               StatusServiceUnavailable] ∧
  ∃ response,
    (Success response = true ↔ status rw = StatusOK) ∧
    Body (inner rw) = match encode response with
                      | None => [response]
                      | Some _ => []
                      end.

(** Requests of the four routes. *)
Definition GET_health : Request :=
  {| Method := "GET"; URLPath := "/health"; QueryName := "";
     Decoded := inl "EOF" |}.
Definition POST_batch (companies : list Company) : Request :=
  {| Method := "POST"; URLPath := "/api/v1/companies/batch"; QueryName := "";
     Decoded := inr {| Companies := companies |} |}.
Definition PUT_treated (name : string) : Request :=
  {| Method := "PUT"; URLPath := "/api/v1/companies/update-treated";
     QueryName := name; Decoded := inl "EOF" |}.

(** * Properties *)

(** Closes a goal on concrete data by evaluation. *)
Ltac by_compute :=
  vm_compute;
  first [ reflexivity | discriminate | eexists; reflexivity
        | let H := fresh in intros H; discriminate H ].

(** ** The programs, call by call *)

Lemma operations_loop (acc : list UpdateOneModel) (companies : list Company) :
  foldl (λ operations company, operations ++ [operation_of company])
        acc companies
  = acc ++ (operation_of <$> companies).
Proof.
  revert acc. induction companies as [|c cs IH]; intros acc; simpl.
  - by rewrite app_nil_r.
  - rewrite IH. by rewrite <- app_assoc.
Qed.

Lemma ProcessBatch_nonempty (companies : list Company) :
  companies ≠ [] →
  ∃ k, ProcessBatch companies
       = Do (BulkWrite (operation_of <$> companies) {| Ordered := false |}) k
     ∧ ∀ resp, k resp = after_BulkWrite resp.
Proof.
  intros Hne. unfold ProcessBatch.
  destruct (decide (length companies = 0%nat)) as [Hlen|_].
  { destruct companies; [done | discriminate Hlen]. }
  rewrite operations_loop. simpl. eexists. split; [reflexivity|].
  intros [r [e|]]; reflexivity.
Qed.

Section any_store.
Context {S : Type} (handler : ∀ X, Call X → S → X * S).

Lemma interp_ProcessBatch (companies : list Company) (s : S) :
  companies ≠ [] →
  interp handler (ProcessBatch companies) s
  = let bw := BulkWrite (operation_of <$> companies) {| Ordered := false |} in
    let '(resp, s') := handler _ bw s in
    let '(a, s'', tr) := interp handler (after_BulkWrite resp) s' in
    (a, s'', Called bw :: tr).
Proof.
  intros Hne. destruct (ProcessBatch_nonempty companies Hne) as (k & -> & Hk).
  simpl. destruct (handler _ _ s) as [resp s']. by rewrite Hk.
Qed.

Lemma interp_after_BulkWrite_error r e (s : S) :
  interp handler (after_BulkWrite (r, Some e)) s
  = ((0, Some (Errorf "failed to process batch: " e)), s, []).
Proof. reflexivity. Qed.

Lemma interp_after_BulkWrite_ok r (s : S) :
  ∃ s' fmt args,
    interp handler (after_BulkWrite (r, None)) s
    = ((int_of_int64 (add64 (BulkWriteResult.ModifiedCount r)
                            (BulkWriteResult.UpsertedCount r)), None),
       s', [Called (Printf fmt args)]).
Proof.
  unfold after_BulkWrite. simpl.
  destruct (handler _ _ s) as [[] s']. by eexists _, _, _.
Qed.
End any_store.

Lemma wrap64_small (z : Z) : - 2^63 ≤ z < 2^63 → wrap64 z = z.
Proof. intros Hz. unfold wrap64. rewrite Z.mod_small; lia. Qed.

(** ** The batch write as the program issues it *)

(** C6. [ProcessBatch] on an empty sequence is the program that returns
    [(0, nil)] at once: it contains no call at all, so against every
    implementation of the store it returns [(0, nil)], leaves the state as
    it was and issues no call (neither a store call nor a log line). *)
Theorem ProcessBatch_empty :
  ProcessBatch [] = Ret (0, None) ∧
  ∀ (S : Type) (handler : ∀ X, Call X → S → X * S) (s : S),
    interp handler (ProcessBatch []) s = ((0, None), s, []).
Proof. split; reflexivity. Qed.

(** C1. Against every implementation of the store, the store calls of
    [ProcessBatch] on a non-empty batch are exactly one [BulkWrite] (an
    empty batch makes none), and it carries one instruction per record, in
    the order of the records: the instruction of a record has the filter
    [{name: record.name}], the update [$set] of the record's three fields
    and [upsert = true].  Under the store's [$set], that update turns
    every document made of these three fields into the record's document. *)
Theorem ProcessBatch_builds_upserts
    (S : Type) (handler : ∀ X, Call X → S → X * S) (s : S)
    (companies : list Company) :
  let operations := operation_of <$> companies in
  filter (λ e, is_store_call e = true)
         (interp handler (ProcessBatch companies) s).2
  = (if decide (companies = []) then []
     else [Called (BulkWrite operations (SetOrdered false options_BulkWrite))]) ∧
  length operations = length companies ∧
  (∀ i company, companies !! i = Some company →
     ∃ m, operations !! i = Some m ∧
          Filter m = {[ "name" := VString (Name company) ]} ∧
          Update m = {[ "$set" := company_doc company ]} ∧
          Upsert m = Some true ∧
          ∀ d : Document,
            dom d ⊆ dom (company_doc company) →
            company_doc company ∪ d = company_doc company).
Proof.
  intros operations. split; [|split].
  - destruct (decide (companies = [])) as [->|Hne]; [reflexivity|].
    rewrite interp_ProcessBatch by done. simpl.
    destruct (handler _ _ s) as [[r [e|]] s'].
    + reflexivity.
    + destruct (interp_after_BulkWrite_ok handler r s') as (s'' & fmt & args & ->).
      reflexivity.
  - unfold operations. by rewrite length_fmap.
  - intros i company Hi. exists (operation_of company).
    split; [|split; [|split; [|split]]]; try reflexivity.
    + unfold operations. by rewrite list_lookup_fmap, Hi.
    + intros d Hdom. apply map_eq. intros k.
      destruct (company_doc company !! k) as [v|] eqn:Hk.
      * by erewrite lookup_union_Some_l.
      * apply lookup_union_None. split; [done|].
        apply not_elem_of_dom. intros Hin. apply Hdom in Hin.
        by apply not_elem_of_dom in Hk.
Qed.

(** C10. Against every implementation of the store: when the bulk write of
    a non-empty batch answers with an error, [ProcessBatch] returns the
    count 0 and that error wrapped as "failed to process batch: ...",
    whatever counters came with the answer and whatever state the store is
    left in by the call. *)
Theorem ProcessBatch_error_count_zero
    (S : Type) (handler : ∀ X, Call X → S → X * S) (s s' : S)
    (companies : list Company) (result : BulkWriteResult.t) (e : error) :
  companies ≠ [] →
  handler _ (BulkWrite (operation_of <$> companies) {| Ordered := false |}) s
    = ((result, Some e), s') →
  (interp handler (ProcessBatch companies) s).1
  = ((0, Some (Errorf "failed to process batch: " e)), s').
Proof.
  intros Hne Hresp. rewrite interp_ProcessBatch by done. simpl.
  rewrite Hresp. reflexivity.
Qed.

(** ** Lists updated in place *)

Section list_facts.
Context {A : Type}.
Implicit Types l : list A.

Lemma insert_Permutation_delete l i x :
  (i < length l)%nat → <[i:=x]> l ≡ₚ x :: delete i l.
Proof.
  intros Hi. rewrite insert_take_drop, delete_take_drop by done.
  by rewrite <- Permutation_middle.
Qed.

Lemma NoDup_insert l i a b :
  NoDup l → l !! i = Some a → (b = a ∨ b ∉ delete i l) → NoDup (<[i:=b]> l).
Proof.
  intros Hnd Hi [->|Hb].
  - by rewrite list_insert_id.
  - rewrite insert_Permutation_delete by eauto using lookup_lt_Some.
    apply NoDup_cons. split; [done|].
    rewrite (delete_Permutation l i a) in Hnd by done.
    by apply NoDup_cons in Hnd as [_ ?].
Qed.

Lemma NoDup_snoc l b : NoDup l → b ∉ l → NoDup (l ++ [b]).
Proof.
  intros Hnd Hb. apply NoDup_app. split_and!; [done| |apply NoDup_singleton].
  intros x Hx ->%list_elem_of_singleton. done.
Qed.
End list_facts.

(** ** The unique index is enforced by every write *)

Section store_facts.
Variable rejects : UpdateOneModel → option error.

Lemma duplicate_key_None idx old others d' k :
  duplicate_key idx old others d' = None →
  k ∈ idx →
  (index_key k <$> old) = Some (index_key k d') ∨
  index_key k d' ∉ index_key k <$> others.
Proof.
  unfold duplicate_key. intros Hnone%fmap_None Hk.
  apply list_find_None in Hnone.
  rewrite Forall_forall in Hnone. specialize (Hnone k Hk).
  apply not_and_l in Hnone as [Hsame|Hnotin]; [|by right].
  left. by apply dec_stable.
Qed.

Lemma update_one_indexes m c :
  indexes (update_one rejects m c).2 = indexes c.
Proof.
  unfold update_one. repeat (case_match || case_decide); done.
Qed.

(** A unique index that holds before an update holds after it, whatever
    the update is. *)
Lemma update_one_unique k m c :
  k ∈ indexes c →
  NoDup (index_key k <$> docs c) →
  NoDup (index_key k <$> docs (update_one rejects m c).2).
Proof.
  intros Hk Hnd. unfold update_one.
  destruct (rejects m); [done|].
  destruct (Update m !! "$set") as [fields|]; [|done].
  destruct (list_find _ _) as [[i d]|] eqn:Hfind.
  - case_decide; [done|].
    destruct (duplicate_key _ _ _ _) eqn:Hdup; [done|]. simpl.
    apply list_find_Some in Hfind as (Hi & _ & _).
    rewrite list_fmap_insert.
    eapply NoDup_insert; [done|by rewrite list_lookup_fmap, Hi|].
    rewrite <- list_fmap_delete.
    destruct (duplicate_key_None _ _ _ _ k Hdup Hk) as [Hsame|Hnotin].
    + left. simpl in Hsame. congruence.
    + by right.
  - case_decide; [|done].
    destruct (duplicate_key _ _ _ _) eqn:Hdup; [done|]. simpl.
    rewrite fmap_app. simpl. apply NoDup_snoc; [done|].
    destruct (duplicate_key_None _ _ _ _ k Hdup Hk) as [Hsame|Hnotin];
      [discriminate Hsame | done].
Qed.

Lemma execute_indexes ordered models c :
  indexes (execute rejects ordered models c).2 = indexes c.
Proof.
  revert c. induction models as [|m rest IH]; intros c; simpl; [done|].
  destruct (update_one rejects m c) as [o c'] eqn:Hone.
  assert (indexes c' = indexes c) as Hidx.
  { by rewrite <- (update_one_indexes m c), Hone. }
  specialize (IH c').
  destruct (execute rejects ordered rest c') as [os c''].
  destruct o, ordered; simpl in *; congruence.
Qed.

Lemma execute_unique k ordered models c :
  k ∈ indexes c →
  NoDup (index_key k <$> docs c) →
  NoDup (index_key k <$> docs (execute rejects ordered models c).2).
Proof.
  revert c. induction models as [|m rest IH]; intros c Hk Hnd; simpl; [done|].
  pose proof (update_one_unique k m c Hk Hnd) as Hnd'.
  pose proof (update_one_indexes m c) as Hidx.
  destruct (update_one rejects m c) as [o c']. simpl in *.
  assert (k ∈ indexes c') as Hk' by (by rewrite Hidx).
  specialize (IH c' Hk' Hnd').
  destruct (execute rejects ordered rest c') as [os c''].
  destruct o, ordered; simpl in *; done.
Qed.
End store_facts.

(** ** Uniqueness of names *)

Lemma filter_key_NoDup {A B : Type} `{EqDecision B} (f : A → B) (v : B) (l : list A) :
  NoDup (f <$> l) → (length (filter (λ x, f x = v) l) ≤ 1)%nat.
Proof.
  induction l as [|x l IH]; simpl; [lia|].
  intros [Hx Hnd]%NoDup_cons. specialize (IH Hnd).
  rewrite filter_cons. case_decide as Hv; [|done]. simpl.
  destruct (filter (λ x, f x = v) l) as [|y ys] eqn:Hf; [simpl; lia|].
  exfalso. apply Hx.
  assert (y ∈ filter (λ x, f x = v) l) as [Hfy Hy]%list_elem_of_filter
    by (rewrite Hf; left).
  rewrite Hv, <- Hfy. by apply list_elem_of_fmap_2.
Qed.

Section uniqueness.
Variable rejects : UpdateOneModel → option error.

Lemma handle_unique_on k sch X (c : Call X) (w : World) :
  unique_on k (coll w) → unique_on k (coll (handle rejects sch X c w).2).
Proof.
  intros [Hk Hnd]. destruct c; simpl; try done.
  - unfold collection_CreateOne.
    destruct (Keys model) as [|[k' dir] [|]]; [done| |done].
    destruct (Unique model); [|done].
    case_decide; [|done]. simpl. split; [|done].
    case_decide; [done|]. apply elem_of_app. by left.
  - unfold bulk_write.
    pose proof (execute_indexes rejects (Ordered opts)
      (if Ordered opts then models else order sch models) (coll w)) as Hidx.
    pose proof (execute_unique rejects k (Ordered opts)
      (if Ordered opts then models else order sch models) (coll w) Hk Hnd) as Hnd'.
    destruct (execute _ _ _ _) as [os c']. simpl in *.
    split; [by rewrite Hidx | done].
  - unfold collection_UpdateOne.
    pose proof (update_one_indexes rejects
      {| Filter := filter; Update := update; Upsert := None |} (coll w)) as Hidx.
    pose proof (update_one_unique rejects k
      {| Filter := filter; Update := update; Upsert := None |} (coll w) Hk Hnd) as Hnd'.
    destruct (update_one _ _ _) as [o c']. simpl in *.
    split; [by rewrite Hidx | done].
Qed.

Lemma run_unique_on k sch {A : Type} (p : Prog A) (w : World) :
  unique_on k (coll w) → unique_on k (coll (run rejects sch p w).1.2).
Proof.
  revert w. induction p as [a|X c k' IH]; intros w Hw; simpl; [done|].
  pose proof (handle_unique_on k sch X c w Hw) as Hw'.
  destruct (handle rejects sch X c w) as [x w']. simpl in Hw'.
  specialize (IH x w' Hw'). unfold run in *.
  by destruct (interp _ (k' x) w') as [[a w''] tr].
Qed.

Lemma perform_unique_on k (w : World) (op : Operation) :
  unique_on k (coll w) → unique_on k (coll (perform rejects w op)).
Proof. destruct op; unfold perform; apply run_unique_on. Qed.

Lemma history_unique_on k (w : World) (ops : list Operation) :
  unique_on k (coll w) → unique_on k (coll (history rejects w ops)).
Proof.
  revert w. induction ops as [|op ops IH]; intros w Hw; simpl; [done|].
  apply IH. by apply perform_unique_on.
Qed.

(** A processor that was created has the unique index on [name] in
    place, and the stored names are distinct. *)
Lemma NewBatchProcessor_unique_on sch uri batchSize numWorkers (w : World) :
  let r := run rejects sch (NewBatchProcessor uri batchSize numWorkers) w in
  value_of r = None → unique_on "name" (coll r.1.2).
Proof.
  unfold value_of, run, NewBatchProcessor. simpl.
  unfold collection_CreateOne. simpl.
  case_decide as Hnd; simpl; [|done]. intros _. split; [|done].
  case_decide; [done|]. apply elem_of_app. right. by apply list_elem_of_singleton.
Qed.
End uniqueness.

(** C2. Once [NewBatchProcessor] has succeeded on a collection (whatever
    it held before), the store holds at most one document per name after
    any sequence of the package's operations: batches of any content, run
    by the server in any order, interleaved with treated-updates and
    reads.  Every write keeps the unique index, so the invariant holds
    after each operation of the sequence. *)
Theorem at_most_one_record_per_name
    (rejects : UpdateOneModel → option error) (sch0 : Schedule)
    (uri : string) (batchSize numWorkers : Z)
    (w0 : World) (ops : list Operation) (name : string) :
  let started := run rejects sch0 (NewBatchProcessor uri batchSize numWorkers) w0 in
  value_of started = None →
  (length (records_named name (coll (history rejects started.1.2 ops))) ≤ 1)%nat.
Proof.
  intros started Hok.
  pose proof (NewBatchProcessor_unique_on rejects sch0 uri batchSize numWorkers w0 Hok)
    as Huniq.
  apply (history_unique_on rejects "name" _ ops) in Huniq as [_ Hnd].
  by apply (filter_key_NoDup (index_key "name") (Some (VString name))).
Qed.

(** ** What an upsert of a company does *)

Lemma matches_name (n : string) (d : Document) :
  matches {[ "name" := VString n ]} d ↔ d !! "name" = Some (VString n).
Proof. unfold matches. apply map_singleton_subseteq_l. Qed.

Lemma company_doc_name r : company_doc r !! "name" = Some (VString (Name r)).
Proof. reflexivity. Qed.
Lemma company_doc_address r : company_doc r !! "address" = Some (VString (Address r)).
Proof. reflexivity. Qed.
Lemma company_doc_treated r : company_doc r !! "treated" = Some (VBool (Treated r)).
Proof. reflexivity. Qed.

Lemma company_doc_inj r1 r2 : company_doc r1 = company_doc r2 → r1 = r2.
Proof.
  intros H.
  pose proof (f_equal (λ m : Document, m !! "name") H) as Hn.
  pose proof (f_equal (λ m : Document, m !! "address") H) as Ha.
  pose proof (f_equal (λ m : Document, m !! "treated") H) as Ht.
  simpl in *. rewrite !company_doc_name in Hn.
  rewrite !company_doc_address in Ha. rewrite !company_doc_treated in Ht.
  destruct r1, r2; simpl in *; congruence.
Qed.

Lemma company_doc_filter r :
  company_doc r ∪ {[ "name" := VString (Name r) ]} = company_doc r.
Proof.
  apply map_eq. intros k. rewrite lookup_union.
  destruct (decide (k = "name")) as [->|Hk].
  - by rewrite company_doc_name, lookup_singleton_eq.
  - rewrite lookup_singleton_ne by done. by destruct (company_doc r !! k).
Qed.

Lemma carries_union r d : carries (company_doc r ∪ d) r.
Proof. apply map_union_subseteq_l. Qed.

Lemma carries_self r : carries (company_doc r) r.
Proof. by unfold carries. Qed.

Lemma carries_fixed r d : carries d r ↔ company_doc r ∪ d = d.
Proof.
  split; [apply map_subseteq_union|].
  intros <-. apply carries_union.
Qed.

Lemma carries_name r d : carries d r → d !! "name" = Some (VString (Name r)).
Proof. intros H. eapply lookup_weaken; [apply company_doc_name | done]. Qed.

Lemma union_name r d : (company_doc r ∪ d) !! "name" = Some (VString (Name r)).
Proof. apply carries_name, carries_union. Qed.

Section upsert.
Variable rejects : UpdateOneModel → option error.

Lemma update_one_upsert r c :
  only_name_index c →
  update_one rejects (operation_of r) c =
    match rejects (operation_of r) with
    | Some msg => (Rejected msg, c)
    | None =>
        match list_find (matches {[ "name" := VString (Name r) ]}) (docs c) with
        | Some (i, d) =>
            (Matched (bool_decide (company_doc r ∪ d ≠ d)),
             {| docs := <[i := company_doc r ∪ d]> (docs c);
                indexes := indexes c |})
        | None =>
            (Inserted,
             {| docs := docs c ++ [company_doc r]; indexes := indexes c |})
        end
    end.
Proof.
  intros Hidx. unfold update_one.
  destruct (rejects (operation_of r)); [done|].
  change (Update (operation_of r) !! "$set") with (Some (company_doc r)).
  change (Filter (operation_of r)) with ({[ "name" := VString (Name r) ]} : Document).
  change (Upsert (operation_of r)) with (Some true).
  destruct (list_find _ _) as [[i d]|] eqn:Hfind.
  - pose proof Hfind as (Hi & Hm%matches_name & _)%list_find_Some.
    case_decide as Heq.
    + rewrite Heq, bool_decide_eq_false_2 by (by intros ?).
      rewrite list_insert_id by done. by destruct c.
    + rewrite bool_decide_eq_true_2 by done.
      assert (duplicate_key (indexes c) (Some d) (delete i (docs c))
                (company_doc r ∪ d) = None) as ->; [|done].
      unfold duplicate_key. apply fmap_None, list_find_None, Forall_forall.
      intros k ->%Hidx [Hchanged _]. apply Hchanged. simpl.
      unfold index_key. by rewrite union_name, Hm.
  - rewrite decide_True by done. rewrite company_doc_filter.
    assert (duplicate_key (indexes c) None (docs c) (company_doc r) = None)
      as ->; [|done].
    unfold duplicate_key. apply fmap_None, list_find_None, Forall_forall.
    intros k ->%Hidx [_ Hin].
    apply list_elem_of_fmap in Hin as (d0 & Hkey & Hd0).
    apply list_find_None in Hfind. rewrite Forall_forall in Hfind.
    apply (Hfind d0 Hd0). apply matches_name.
    unfold index_key in Hkey. by rewrite <- Hkey, company_doc_name.
Qed.

Lemma update_one_upsert_indexes r c :
  only_name_index c → only_name_index (update_one rejects (operation_of r) c).2.
Proof. intros H. unfold only_name_index. by rewrite update_one_indexes. Qed.

(** An unordered run is the fold of the single updates. *)
Lemma execute_unordered_cons m rest c :
  execute rejects false (m :: rest) c =
    ((update_one rejects m c).1
       :: (execute rejects false rest (update_one rejects m c).2).1,
     (execute rejects false rest (update_one rejects m c).2).2).
Proof.
  simpl. destruct (update_one rejects m c) as [o c']. simpl.
  destruct (execute rejects false rest c') as [os c'']. by destruct o.
Qed.

Lemma execute_unordered_length models c :
  length (execute rejects false models c).1 = length models.
Proof.
  revert c. induction models as [|m rest IH]; intros c; [done|].
  rewrite execute_unordered_cons. simpl. by rewrite IH.
Qed.
End upsert.

(** ** Running a batch against the store *)

Section batch.
Variable rejects : UpdateOneModel → option error.

Lemma run_ProcessBatch sch companies (w : World) :
  companies ≠ [] →
  let r := run rejects sch (ProcessBatch companies) w in
  let os := batch_outcomes rejects sch companies (coll w) in
  coll_of r = batch_collection rejects sch companies (coll w) ∧
  value_of r =
    match bulk_error os with
    | Some e => (0, Some (Errorf "failed to process batch: " e))
    | None =>
        (int_of_int64 (add64 (count is_modified os) (count is_inserted os)),
         None)
    end.
Proof.
  intros Hne. unfold run, coll_of, value_of, batch_outcomes, batch_collection.
  rewrite interp_ProcessBatch by done. simpl. unfold bulk_write. simpl.
  destruct (execute _ _ _ _) as [os c']. simpl.
  unfold after_BulkWrite. simpl. by destruct (bulk_error os).
Qed.

(** The schedule only rearranges the operations of the batch. *)
Lemma order_operations sch companies :
  ∃ rs, order sch (operation_of <$> companies) = operation_of <$> rs ∧
        rs ≡ₚ companies.
Proof.
  pose proof (order_perm sch (operation_of <$> companies)) as Hperm.
  apply Permutation_map_inv in Hperm as (rs & Heq & Hperm).
  exists rs. split; [done | by symmetry].
Qed.

Lemma execute_only_name_index rs c :
  only_name_index c →
  only_name_index (execute rejects false (operation_of <$> rs) c).2.
Proof. intros H. unfold only_name_index. by rewrite execute_indexes. Qed.

Lemma update_one_applies b r c :
  only_name_index c → r ∈ b → rejects (operation_of r) = None →
  applied rejects b (Name r) (update_one rejects (operation_of r) c).2.
Proof.
  intros Hidx Hr Hacc. rewrite update_one_upsert, Hacc by done.
  destruct (list_find _ _) as [[i d]|] eqn:Hfind; simpl.
  - apply list_find_Some in Hfind as (Hi & _ & _).
    exists (company_doc r ∪ d), r. split_and!; try done.
    + apply list_elem_of_insert. eauto using lookup_lt_Some.
    + apply carries_union.
  - exists (company_doc r), r. split_and!; try done.
    + apply elem_of_app. right. by apply list_elem_of_singleton.
    + apply carries_self.
Qed.

Lemma update_one_keeps_applied b n r c :
  only_name_index c → r ∈ b →
  applied rejects b n c → applied rejects b n (update_one rejects (operation_of r) c).2.
Proof.
  intros Hidx Hr (d0 & r0 & Hd0 & Hr0 & Hn & Hacc & Hcar).
  rewrite update_one_upsert by done.
  destruct (rejects (operation_of r)) eqn:Hrej; [by exists d0, r0|].
  destruct (list_find _ _) as [[i d]|] eqn:Hfind; simpl.
  - apply list_find_Some in Hfind as (Hi & Hm%matches_name & _).
    apply list_elem_of_lookup in Hd0 as [j Hj].
    destruct (decide (j = i)) as [->|Hji].
    + assert (d0 = d) as -> by congruence.
      exists (company_doc r ∪ d), r. split_and!; try done.
      * apply list_elem_of_insert. eauto using lookup_lt_Some.
      * apply carries_name in Hcar. congruence.
      * apply carries_union.
    + exists d0, r0. split_and!; try done.
      apply list_elem_of_lookup. exists j. simpl.
      by rewrite list_lookup_insert_ne.
  - exists d0, r0. split_and!; try done. apply elem_of_app. by left.
Qed.

Lemma execute_keeps_applied b n rs c :
  only_name_index c → rs ⊆ b →
  applied rejects b n c →
  applied rejects b n (execute rejects false (operation_of <$> rs) c).2.
Proof.
  revert c. induction rs as [|r rs IH]; intros c Hidx Hsub Happ; [done|].
  rewrite fmap_cons, execute_unordered_cons. simpl.
  apply IH.
  - by apply update_one_upsert_indexes.
  - intros x Hx. apply Hsub. by right.
  - apply update_one_keeps_applied; [done| |done]. apply Hsub. by left.
Qed.

Lemma execute_applies b rs r c :
  only_name_index c → rs ⊆ b →
  r ∈ rs → rejects (operation_of r) = None →
  applied rejects b (Name r) (execute rejects false (operation_of <$> rs) c).2.
Proof.
  revert c. induction rs as [|r0 rs IH]; intros c Hidx Hsub Hr Hacc.
  { by apply elem_of_nil in Hr. }
  rewrite fmap_cons, execute_unordered_cons. simpl.
  assert (rs ⊆ b) as Hsub' by (intros x Hx; apply Hsub; by right).
  assert (r0 ∈ b) as Hr0 by (apply Hsub; by left).
  apply elem_of_cons in Hr as [->|Hr].
  - apply execute_keeps_applied; [by apply update_one_upsert_indexes|done|].
    by apply update_one_applies.
  - apply IH; [by apply update_one_upsert_indexes|done..].
Qed.
End batch.

(** C4. [ProcessBatch] submits its batch unordered, and under that mode a
    refused operation does not stop the others: whichever operations the
    store refuses and in whatever order it runs the batch, every
    operation of the batch is run and has its outcome, and every record
    of the batch whose operation the store accepts is applied.  After the
    call some stored document carries the three fields of an accepted
    record of the batch with that name; it is the record itself when no
    other record of the batch has its name.  (The collection carries no
    unique index besides the one on [name].) *)
Theorem unordered_batch_applies_accepted
    (rejects : UpdateOneModel → option error) (sch : Schedule) (w : World)
    (companies : list Company) (r : Company) :
  only_name_index (coll w) →
  r ∈ companies →
  rejects (operation_of r) = None →
  let after := docs_of (run rejects sch (ProcessBatch companies) w) in
  length (batch_outcomes rejects sch companies (coll w)) = length companies ∧
  (∃ d r', d ∈ after ∧ r' ∈ companies ∧ Name r' = Name r ∧
           rejects (operation_of r') = None ∧ carries d r') ∧
  ((∀ r', r' ∈ companies → Name r' = Name r → r' = r) →
   ∃ d, d ∈ after ∧ carries d r).
Proof.
  intros Hidx Hr Hacc after.
  split.
  { unfold batch_outcomes. rewrite execute_unordered_length.
    by rewrite (Permutation_length (order_perm sch _)), length_fmap. }
  assert (companies ≠ []) as Hne by (intros ->; by apply elem_of_nil in Hr).
  assert (applied rejects companies (Name r)
            (coll_of (run rejects sch (ProcessBatch companies) w))) as Happ.
  { destruct (run_ProcessBatch rejects sch companies w Hne) as [-> _].
    unfold batch_collection.
    destruct (order_operations sch companies) as (rs & -> & Hperm).
    apply execute_applies; [done| | |done].
    - intros x Hx. by rewrite <- Hperm.
    - by rewrite Hperm. }
  split; [exact Happ|].
  intros Honly. destruct Happ as (d & r' & Hd & Hr' & Hn & _ & Hcar).
  exists d. split; [done|]. by rewrite <- (Honly r' Hr' Hn).
Qed.

(** ** The count a batch reports *)

Section counting.
Variable rejects : UpdateOneModel → option error.

Lemma count_cons p o os :
  count p (o :: os) = (if p o then 1 else 0) + count p os.
Proof.
  unfold count. rewrite filter_cons.
  destruct (p o); [rewrite decide_True by done|rewrite decide_False by done];
    simpl length; lia.
Qed.

Lemma count_nonneg p os : 0 ≤ count p os.
Proof. unfold count. lia. Qed.

Lemma count_modified_inserted os :
  count is_modified os + count is_inserted os ≤ Z.of_nat (length os).
Proof.
  induction os as [|o os IH]; [done|].
  rewrite !count_cons. simpl length.
  destruct o as [|[]| |]; simpl; lia.
Qed.

(** Only an insertion makes the collection longer. *)
Lemma update_one_length m c :
  Z.of_nat (length (docs (update_one rejects m c).2))
  = Z.of_nat (length (docs c))
    + (if is_inserted (update_one rejects m c).1 then 1 else 0).
Proof.
  unfold update_one. repeat (case_match || case_decide); simplify_eq/=;
    rewrite ?length_insert, ?length_app; simpl; lia.
Qed.

Lemma execute_unordered_inserted models c :
  Z.of_nat (length (docs (execute rejects false models c).2))
  = Z.of_nat (length (docs c))
    + count is_inserted (execute rejects false models c).1.
Proof.
  revert c. induction models as [|m rest IH]; intros c.
  { simpl. unfold count. simpl. lia. }
  rewrite execute_unordered_cons. simpl. rewrite IH, count_cons.
  rewrite update_one_length. lia.
Qed.
End counting.

(** ** Submitting a batch again *)

Section resubmission.
Variable rejects : UpdateOneModel → option error.

Lemma settled_noop r c :
  only_name_index c → settled rejects r c →
  (update_one rejects (operation_of r) c).2 = c ∧
  quiet (update_one rejects (operation_of r) c).1.
Proof.
  intros Hidx Hset. rewrite update_one_upsert by done.
  destruct (rejects (operation_of r)) eqn:Hrej; [done|].
  destruct Hset as [?|(i & d & Hfind & Hcar)]; [done|].
  rewrite Hfind. apply list_find_Some in Hfind as (Hi & _).
  apply carries_fixed in Hcar. rewrite Hcar. simpl.
  rewrite bool_decide_eq_false_2 by (by intros ?).
  split; [|done].
  rewrite list_insert_id by done. by destruct c.
Qed.

Lemma update_one_settles r c :
  only_name_index c → settled rejects r (update_one rejects (operation_of r) c).2.
Proof.
  intros Hidx. unfold settled. rewrite update_one_upsert by done.
  destruct (rejects (operation_of r)) eqn:Hrej; [by left|]. right.
  destruct (list_find _ (docs c)) as [[i d]|] eqn:Hfind; simpl.
  - exists i, (company_doc r ∪ d). split; [|apply carries_union].
    apply list_find_Some in Hfind as (Hi & _ & Hleast).
    apply list_find_insert_Some. right. left.
    split_and!; [done|done|by eauto using lookup_lt_Some| |done].
    apply matches_name, union_name.
  - exists (length (docs c)), (company_doc r). split; [|apply carries_self].
    apply list_find_app_Some. right. split_and!; [done|done|].
    rewrite Nat.sub_diag. simpl.
    rewrite decide_True; [done|]. apply matches_name, company_doc_name.
Qed.

Lemma update_one_keeps_settled r r2 c :
  only_name_index c →
  (Name r2 = Name r → r2 = r ∨ rejects (operation_of r2) ≠ None) →
  settled rejects r c → settled rejects r (update_one rejects (operation_of r2) c).2.
Proof.
  intros Hidx Hsame Hset.
  destruct (rejects (operation_of r2)) eqn:Hrej2.
  { by rewrite update_one_upsert, Hrej2 by done. }
  destruct (decide (Name r2 = Name r)) as [Heq|Hne].
  { destruct (Hsame Heq) as [->|?]; [|done].
    by rewrite (proj1 (settled_noop r c Hidx Hset)). }
  destruct Hset as [?|(i & d & Hfind & Hcar)]; [by left|]. right.
  rewrite update_one_upsert, Hrej2 by done.
  destruct (list_find (matches {[ "name" := VString (Name r2) ]}) (docs c))
    as [[j d2]|] eqn:Hfind2; simpl.
  - exists i, d. split; [|done].
    apply list_find_Some in Hfind2 as (Hj & Hm2%matches_name & _).
    pose proof Hfind as (Hi & Hm%matches_name & _)%list_find_Some.
    assert (j ≠ i) as Hji by (intros ->; congruence).
    assert (¬ matches {[ "name" := VString (Name r) ]} (company_doc r2 ∪ d2)) as Hx.
    { rewrite matches_name, union_name. congruence. }
    assert (∀ z, docs c !! j = Some z →
                 ¬ matches {[ "name" := VString (Name r) ]} z) as Hz.
    { intros z Hjz. rewrite matches_name. congruence. }
    apply list_find_insert_Some.
    destruct (decide (i < j)%nat); [by left|].
    right. right. left. split_and!; [lia|done..].
  - exists i, d. split; [|done]. by apply list_find_app_l.
Qed.

Lemma execute_keeps_settled r rs c :
  only_name_index c →
  (∀ r2, r2 ∈ rs → Name r2 = Name r →
     r2 = r ∨ rejects (operation_of r2) ≠ None) →
  settled rejects r c →
  settled rejects r (execute rejects false (operation_of <$> rs) c).2.
Proof.
  revert c. induction rs as [|r2 rs IH]; intros c Hidx Hsame Hset; [done|].
  rewrite fmap_cons, execute_unordered_cons. simpl. apply IH.
  - by apply update_one_upsert_indexes.
  - intros x Hx. apply Hsame. by right.
  - apply update_one_keeps_settled; [done| |done]. apply Hsame. by left.
Qed.

Lemma execute_settles rs c :
  only_name_index c →
  (∀ r1 r2, r1 ∈ rs → r2 ∈ rs → Name r1 = Name r2 → r1 = r2) →
  ∀ r, r ∈ rs → settled rejects r (execute rejects false (operation_of <$> rs) c).2.
Proof.
  revert c. induction rs as [|r0 rs IH]; intros c Hidx Hcons r Hr.
  { by apply elem_of_nil in Hr. }
  rewrite fmap_cons, execute_unordered_cons. simpl.
  apply elem_of_cons in Hr as [->|Hr].
  - apply execute_keeps_settled.
    + by apply update_one_upsert_indexes.
    + intros r2 Hr2 Hn. left. apply Hcons; [by right | by left | done].
    + by apply update_one_settles.
  - apply IH; [by apply update_one_upsert_indexes| |done].
    intros r1 r2 H1 H2. apply Hcons; by right.
Qed.

Lemma execute_settled_noop rs c :
  only_name_index c →
  (∀ r, r ∈ rs → settled rejects r c) →
  (execute rejects false (operation_of <$> rs) c).2 = c ∧
  Forall quiet (execute rejects false (operation_of <$> rs) c).1.
Proof.
  induction rs as [|r rs IH]; intros Hidx Hset; [by split|].
  rewrite fmap_cons, execute_unordered_cons. simpl.
  destruct (settled_noop r c Hidx) as [Hc Hq]; [apply Hset; by left|].
  rewrite Hc. destruct IH as [IHc IHq]; [done| |].
  { intros x Hx. apply Hset. by right. }
  split; [done|]. by constructor.
Qed.

Lemma count_quiet os :
  Forall quiet os → count is_modified os = 0 ∧ count is_inserted os = 0.
Proof.
  unfold count. induction 1 as [|o os [Hm Hi] _ [IHm IHi]]; [done|].
  rewrite !filter_cons, !decide_False by congruence. done.
Qed.
(** *** The same order twice *)

Lemma list_find_insert_other {A : Type} (P : A → Prop) `{!∀ x, Decision (P x)}
    (l : list A) i d j d2 x :
  list_find P l = Some (i, d) → l !! j = Some d2 → ¬ P d2 → ¬ P x →
  list_find P (<[j:=x]> l) = Some (i, d).
Proof.
  intros Hfind Hj Hd2 Hx. apply list_find_insert_Some.
  pose proof Hfind as (Hi & HP & _)%list_find_Some.
  assert (j ≠ i) by (intros ->; congruence).
  destruct (decide (i < j)%nat); [by left|].
  right. right. left. split_and!; [lia|done..|]. intros z Hz. congruence.
Qed.

Lemma list_find_insert_None {A : Type} (P : A → Prop) `{!∀ x, Decision (P x)}
    (l : list A) j x :
  list_find P l = None → ¬ P x → list_find P (<[j:=x]> l) = None.
Proof.
  rewrite !list_find_None, !Forall_forall. intros Hl Hx y Hy.
  apply list_elem_of_lookup in Hy as [k Hk].
  apply list_lookup_insert_Some in Hk as [(_ & <- & _)|[_ Hk]]; [done|].
  apply Hl. by eapply list_elem_of_lookup_2.
Qed.

Lemma list_find_insert_same {A : Type} (P : A → Prop) `{!∀ x, Decision (P x)}
    (l : list A) i d x :
  list_find P l = Some (i, d) → P x → list_find P (<[i:=x]> l) = Some (i, x).
Proof.
  intros (Hi & _ & Hleast)%list_find_Some Hx.
  apply list_find_insert_Some. right. left.
  split_and!; [done|done|by eauto using lookup_lt_Some|done|done].
Qed.

Lemma list_find_snoc_new {A : Type} (P : A → Prop) `{!∀ x, Decision (P x)}
    (l : list A) x :
  list_find P l = None → P x → list_find P (l ++ [x]) = Some (length l, x).
Proof.
  intros Hl Hx. apply list_find_app_Some. right. split_and!; [done|done|].
  rewrite Nat.sub_diag. simpl. by rewrite decide_True.
Qed.

Lemma company_doc_same_fields r r2 k :
  company_doc r !! k = None → company_doc r2 !! k = None.
Proof.
  unfold company_doc. rewrite !lookup_insert_None, !lookup_singleton_None. done.
Qed.

Lemma union_absorb r2 r (d : Document) :
  company_doc r2 ∪ (company_doc r ∪ d) = company_doc r2 ∪ d.
Proof.
  apply map_eq. intros k. rewrite !lookup_union.
  destruct (company_doc r2 !! k) as [v|] eqn:H2.
  - by destruct (company_doc r !! k), (d !! k).
  - rewrite (company_doc_same_fields r2 r k H2). by destruct (d !! k).
Qed.

Lemma union_absorb_new r2 r : company_doc r2 ∪ company_doc r = company_doc r2.
Proof.
  rewrite <- (right_id_L ∅ (∪) (company_doc r)), union_absorb.
  apply (right_id_L ∅ (∪)).
Qed.

Lemma upsert_rejected r c e :
  rejects (operation_of r) = Some e →
  (update_one rejects (operation_of r) c).2 = c.
Proof. intros H. unfold update_one. by rewrite H. Qed.

Lemma upsert_matched r c i d :
  only_name_index c → rejects (operation_of r) = None →
  list_find (matches {[ "name" := VString (Name r) ]}) (docs c) = Some (i, d) →
  (update_one rejects (operation_of r) c).2
  = {| docs := <[i := company_doc r ∪ d]> (docs c); indexes := indexes c |}.
Proof. intros Hidx Hacc Hfind. by rewrite update_one_upsert, Hacc, Hfind. Qed.

Lemma upsert_inserted r c :
  only_name_index c → rejects (operation_of r) = None →
  list_find (matches {[ "name" := VString (Name r) ]}) (docs c) = None →
  (update_one rejects (operation_of r) c).2
  = {| docs := docs c ++ [company_doc r]; indexes := indexes c |}.
Proof. intros Hidx Hacc Hfind. by rewrite update_one_upsert, Hacc, Hfind. Qed.

Lemma present_find n c :
  present n c ↔
  ∃ i d, list_find (matches {[ "name" := VString n ]}) (docs c) = Some (i, d).
Proof.
  split.
  - intros (d & Hd & Hn).
    destruct (list_find_elem_of (matches {[ "name" := VString n ]}) (docs c) d)
      as [[i d'] Hfind]; [done|by apply matches_name|]. by exists i, d'.
  - intros (i & d & (Hi & Hm%matches_name & _)%list_find_Some).
    exists d. split; [by eapply list_elem_of_lookup_2|done].
Qed.

(** A later upsert of the same name overwrites an earlier one. *)
Lemma upsert_absorb r r2 c :
  only_name_index c → Name r2 = Name r →
  rejects (operation_of r) = None → rejects (operation_of r2) = None →
  (update_one rejects (operation_of r2)
     (update_one rejects (operation_of r) c).2).2
  = (update_one rejects (operation_of r2) c).2.
Proof.
  intros Hidx Hn Hacc Hacc2.
  destruct (list_find (matches {[ "name" := VString (Name r) ]}) (docs c))
    as [[i d]|] eqn:Hfind.
  - rewrite (upsert_matched r c i d) by done.
    rewrite (upsert_matched r2 c i d) by (by rewrite ?Hn).
    rewrite (upsert_matched r2 _ i (company_doc r ∪ d));
      [|exact Hidx|done|]; last first.
    { simpl. rewrite Hn. eapply list_find_insert_same; [done|].
      apply matches_name, union_name. }
    simpl. by rewrite list_insert_insert_eq, union_absorb.
  - rewrite (upsert_inserted r c) by done.
    rewrite (upsert_inserted r2 c) by (by rewrite ?Hn).
    rewrite (upsert_matched r2 _ (length (docs c)) (company_doc r));
      [|exact Hidx|done|]; last first.
    { simpl. rewrite Hn. apply list_find_snoc_new; [done|].
      apply matches_name, company_doc_name. }
    simpl. rewrite insert_app_r_alt, Nat.sub_diag by done. simpl.
    by rewrite union_absorb_new.
Qed.

(** Upserts of different names can be swapped once the first name is
    stored. *)
Lemma upsert_commute r r2 c :
  only_name_index c → Name r2 ≠ Name r → present (Name r) c →
  (update_one rejects (operation_of r2)
     (update_one rejects (operation_of r) c).2).2
  = (update_one rejects (operation_of r)
       (update_one rejects (operation_of r2) c).2).2.
Proof.
  intros Hidx Hne (i & d & Hfind)%present_find.
  destruct (rejects (operation_of r)) as [e|] eqn:Hacc.
  { by rewrite !(upsert_rejected r _ e). }
  destruct (rejects (operation_of r2)) as [e2|] eqn:Hacc2.
  { by rewrite !(upsert_rejected r2 _ e2). }
  pose proof Hfind as (Hi & Hm%matches_name & _)%list_find_Some.
  assert (¬ matches {[ "name" := VString (Name r2) ]} d) as Hd.
  { rewrite matches_name. congruence. }
  assert (¬ matches {[ "name" := VString (Name r2) ]} (company_doc r ∪ d)) as Hd'.
  { rewrite matches_name, union_name. congruence. }
  rewrite (upsert_matched r c i d) by done.
  destruct (list_find (matches {[ "name" := VString (Name r2) ]}) (docs c))
    as [[j d2]|] eqn:Hfind2.
  - pose proof Hfind2 as (Hj & Hm2%matches_name & _)%list_find_Some.
    assert (i ≠ j) by (intros ->; congruence).
    rewrite (upsert_matched r2 c j d2) by done.
    rewrite (upsert_matched r2 _ j d2); [|exact Hidx|done|]; last first.
    { simpl. by eapply list_find_insert_other. }
    rewrite (upsert_matched r _ i d); [|exact Hidx|done|]; last first.
    { simpl. eapply list_find_insert_other; [done..| |].
      - rewrite matches_name. congruence.
      - rewrite matches_name, union_name. congruence. }
    simpl. by rewrite list_insert_insert_ne.
  - rewrite (upsert_inserted r2 c) by done.
    rewrite (upsert_inserted r2); [|exact Hidx|done|]; last first.
    { simpl. by apply list_find_insert_None. }
    rewrite (upsert_matched r _ i d); [|exact Hidx|done|]; last first.
    { simpl. by apply list_find_app_l. }
    simpl. by rewrite insert_app_l by eauto using lookup_lt_Some.
Qed.

Lemma upsert_present r c :
  only_name_index c → rejects (operation_of r) = None →
  present (Name r) (update_one rejects (operation_of r) c).2.
Proof.
  intros Hidx Hacc. apply present_find.
  destruct (update_one_settles r c Hidx) as [?|(i & d & Hfind & _)]; [done|].
  by exists i, d.
Qed.

Lemma upsert_keeps_present n r c :
  only_name_index c → present n c →
  present n (update_one rejects (operation_of r) c).2.
Proof.
  intros Hidx (d0 & Hd0 & Hn).
  destruct (rejects (operation_of r)) as [e|] eqn:Hacc.
  { rewrite (upsert_rejected r c e) by done. by exists d0. }
  destruct (list_find (matches {[ "name" := VString (Name r) ]}) (docs c))
    as [[i d]|] eqn:Hfind.
  - rewrite (upsert_matched r c i d) by done.
    apply list_find_Some in Hfind as (Hi & Hm%matches_name & _).
    apply list_elem_of_lookup in Hd0 as [j Hj].
    destruct (decide (j = i)) as [->|Hji].
    + exists (company_doc r ∪ d). split.
      * apply list_elem_of_insert. eauto using lookup_lt_Some.
      * rewrite union_name. congruence.
    + exists d0. split; [|done]. apply list_elem_of_lookup. exists j.
      simpl. by rewrite list_lookup_insert_ne.
  - rewrite (upsert_inserted r c) by done.
    exists d0. split; [|done]. apply elem_of_app. by left.
Qed.

Lemma execute_keeps_present n rs c :
  only_name_index c → present n c →
  present n (execute rejects false (operation_of <$> rs) c).2.
Proof.
  revert c. induction rs as [|r rs IH]; intros c Hidx Hp; [done|].
  rewrite fmap_cons, execute_unordered_cons. simpl.
  apply IH; [by apply update_one_upsert_indexes|by apply upsert_keeps_present].
Qed.

(** An upsert that a later accepted operation of the run overwrites makes
    no difference to what the run leaves. *)
Lemma execute_absorbs r rs c :
  only_name_index c → present (Name r) c →
  rejects (operation_of r) = None →
  Exists (λ r2, Name r2 = Name r ∧ rejects (operation_of r2) = None) rs →
  (execute rejects false (operation_of <$> rs)
     (update_one rejects (operation_of r) c).2).2
  = (execute rejects false (operation_of <$> rs) c).2.
Proof.
  intros Hidx Hp Hacc Hex. revert c Hidx Hp.
  induction Hex as [r2 rs [Hn Hacc2]|r2 rs Hex IH]; intros c Hidx Hp.
  - rewrite fmap_cons, !execute_unordered_cons. simpl.
    by rewrite upsert_absorb.
  - rewrite fmap_cons, !execute_unordered_cons. simpl.
    destruct (rejects (operation_of r2)) as [e2|] eqn:Hacc2.
    { rewrite !(upsert_rejected r2 _ e2) by done. by apply IH. }
    destruct (decide (Name r2 = Name r)) as [Hn|Hn].
    + by rewrite upsert_absorb.
    + rewrite upsert_commute by done.
      apply IH; [by apply update_one_upsert_indexes|by apply upsert_keeps_present].
Qed.

(** Running the same operations again, in the same order, changes
    nothing. *)
Lemma execute_twice rs c :
  only_name_index c →
  (execute rejects false (operation_of <$> rs)
     (execute rejects false (operation_of <$> rs) c).2).2
  = (execute rejects false (operation_of <$> rs) c).2.
Proof.
  revert c. induction rs as [|r rs IH]; intros c Hidx; [done|].
  rewrite fmap_cons, !execute_unordered_cons. simpl.
  set (c' := (update_one rejects (operation_of r) c).2).
  assert (only_name_index c') as Hidx' by (by apply update_one_upsert_indexes).
  set (X := (execute rejects false (operation_of <$> rs) c').2).
  assert (only_name_index X) as HidxX by (by apply execute_only_name_index).
  destruct (rejects (operation_of r)) as [e|] eqn:Hacc.
  { rewrite (upsert_rejected r X e) by done. by apply IH. }
  destruct (decide (Exists (λ r2, Name r2 = Name r ∧
                                  rejects (operation_of r2) = None) rs))
    as [Hex|Hex].
  - rewrite execute_absorbs; [by apply IH|done| |done|done].
    apply execute_keeps_present; [done|]. by apply upsert_present.
  - assert (settled rejects r X) as Hset.
    { apply execute_keeps_settled; [done| |by apply update_one_settles].
      intros r2 Hr2 Hn. right. intros Hacc2. apply Hex.
      apply Exists_exists. by exists r2. }
    rewrite (proj1 (settled_noop r X HidxX Hset)). by apply IH.
Qed.

(** *** Any order twice *)

Lemma list_find_snoc {A : Type} (P : A → Prop) `{!∀ x, Decision (P x)}
    (l : list A) x :
  snd <$> list_find P (l ++ [x])
  = match snd <$> list_find P l with
    | Some d => Some d
    | None => if decide (P x) then Some x else None
    end.
Proof.
  destruct (list_find P l) as [[i d]|] eqn:Hfind; simpl.
  - by rewrite (list_find_app_l _ _ _ _ _ Hfind).
  - case_decide as Hx.
    + by rewrite (list_find_snoc_new P l x Hfind Hx).
    + apply fmap_None, list_find_None, Forall_app. split.
      * by apply (list_find_None P).
      * by constructor.
Qed.

Lemma insert_Permutation {A : Type} (l1 l2 : list A) i j d x :
  l1 ≡ₚ l2 → l1 !! i = Some d → l2 !! j = Some d →
  <[i:=x]> l1 ≡ₚ <[j:=x]> l2.
Proof.
  intros Hperm Hi Hj.
  rewrite !insert_Permutation_delete by eauto using lookup_lt_Some.
  constructor. apply (Permutation_cons_inv (a:=d)).
  by rewrite <- !delete_Permutation.
Qed.

Lemma same_documents_refl c : same_documents c c.
Proof. done. Qed.

Lemma same_documents_trans c1 c2 c3 :
  same_documents c1 c2 → same_documents c2 c3 → same_documents c1 c3.
Proof.
  intros (Hp & Hi & Hf) (Hp' & Hi' & Hf'). split_and!.
  - by rewrite Hp.
  - congruence.
  - intros n. by rewrite Hf.
Qed.

Lemma same_documents_indexes c1 c2 :
  same_documents c1 c2 → only_name_index c1 → only_name_index c2.
Proof. intros (_ & Hi & _) H. unfold only_name_index. by rewrite <- Hi. Qed.

(** The document selected for a name after an upsert. *)
Lemma upsert_selects r c n :
  only_name_index c → rejects (operation_of r) = None →
  snd <$> list_find (matches {[ "name" := VString n ]})
            (docs (update_one rejects (operation_of r) c).2)
  = if decide (n = Name r)
    then Some (match snd <$> list_find (matches {[ "name" := VString (Name r) ]})
                                (docs c) with
               | Some d => company_doc r ∪ d
               | None => company_doc r
               end)
    else snd <$> list_find (matches {[ "name" := VString n ]}) (docs c).
Proof.
  intros Hidx Hacc.
  destruct (list_find (matches {[ "name" := VString (Name r) ]}) (docs c))
    as [[i d]|] eqn:Hfind.
  - rewrite (upsert_matched r c i d) by done. simpl.
    pose proof Hfind as (Hi & Hm%matches_name & _)%list_find_Some.
    destruct (decide (n = Name r)) as [->|Hn].
    + rewrite (list_find_insert_same _ _ i d (company_doc r ∪ d) Hfind); [done|].
      apply matches_name, union_name.
    + assert (¬ matches {[ "name" := VString n ]} d) as Hd.
      { rewrite matches_name. congruence. }
      assert (¬ matches {[ "name" := VString n ]} (company_doc r ∪ d)) as Hx.
      { rewrite matches_name, union_name. congruence. }
      destruct (list_find (matches {[ "name" := VString n ]}) (docs c))
        as [[k dk]|] eqn:Hk.
      * by rewrite (list_find_insert_other _ _ k dk i d _ Hk Hi Hd Hx).
      * by rewrite (list_find_insert_None _ _ i _ Hk Hx).
  - rewrite (upsert_inserted r c) by done. simpl.
    rewrite list_find_snoc.
    destruct (decide (n = Name r)) as [->|Hn].
    + rewrite Hfind. simpl. rewrite decide_True; [done|].
      apply matches_name, company_doc_name.
    + destruct (snd <$> list_find _ (docs c)); [done|].
      rewrite decide_False; [done|].
      rewrite matches_name, company_doc_name. congruence.
Qed.

Lemma upsert_same_documents r c1 c2 :
  only_name_index c1 → same_documents c1 c2 →
  same_documents (update_one rejects (operation_of r) c1).2
                 (update_one rejects (operation_of r) c2).2.
Proof.
  intros Hidx1 Hsame.
  pose proof (same_documents_indexes _ _ Hsame Hidx1) as Hidx2.
  destruct (rejects (operation_of r)) as [e|] eqn:Hacc.
  { by rewrite !(upsert_rejected r _ e). }
  destruct Hsame as (Hp & Hi & Hf). split_and!.
  - pose proof (Hf (Name r)) as Hr.
    destruct (list_find _ (docs c1)) as [[i d]|] eqn:Hfind1;
      destruct (list_find _ (docs c2)) as [[j d']|] eqn:Hfind2;
      simplify_eq/=.
    + rewrite (upsert_matched r c1 i d'),
        (upsert_matched r c2 j d') by done. simpl.
      apply list_find_Some in Hfind1 as (? & _), Hfind2 as (? & _).
      by eapply insert_Permutation.
    + rewrite (upsert_inserted r c1), (upsert_inserted r c2)
        by done. simpl. by rewrite Hp.
  - by rewrite !update_one_indexes.
  - intros n. rewrite !upsert_selects by done. by rewrite (Hf n), (Hf (Name r)).
Qed.

Lemma execute_same_documents rs c1 c2 :
  only_name_index c1 → same_documents c1 c2 →
  same_documents (execute rejects false (operation_of <$> rs) c1).2
                 (execute rejects false (operation_of <$> rs) c2).2.
Proof.
  revert c1 c2. induction rs as [|r rs IH]; intros c1 c2 Hidx Hsame; [done|].
  rewrite fmap_cons, !execute_unordered_cons. simpl.
  apply IH; [by apply update_one_upsert_indexes|by apply upsert_same_documents].
Qed.

(** Upserts of different names can be swapped, up to the positions of the
    documents they insert. *)
Lemma upsert_swap r r2 c :
  only_name_index c → Name r2 ≠ Name r →
  same_documents
    (update_one rejects (operation_of r2)
       (update_one rejects (operation_of r) c).2).2
    (update_one rejects (operation_of r)
       (update_one rejects (operation_of r2) c).2).2.
Proof.
  intros Hidx Hne.
  destruct (rejects (operation_of r)) as [e|] eqn:Hacc.
  { rewrite !(upsert_rejected r _ e) by done. done. }
  destruct (rejects (operation_of r2)) as [e2|] eqn:Hacc2.
  { rewrite !(upsert_rejected r2 _ e2) by done. done. }
  destruct (list_find (matches {[ "name" := VString (Name r) ]}) (docs c))
    as [[i d]|] eqn:Hfind.
  { rewrite upsert_commute; [done..|]. apply present_find. by exists i, d. }
  destruct (list_find (matches {[ "name" := VString (Name r2) ]}) (docs c))
    as [[j d2]|] eqn:Hfind2.
  { rewrite <- (upsert_commute r2 r c); [done|done|by apply not_eq_sym|].
    apply present_find. by exists j, d2. }
  assert (only_name_index (update_one rejects (operation_of r) c).2) as Hidx1
    by (by apply update_one_upsert_indexes).
  assert (only_name_index (update_one rejects (operation_of r2) c).2) as Hidx2
    by (by apply update_one_upsert_indexes).
  split_and!.
  - assert (list_find (matches {[ "name" := VString (Name r2) ]})
              (docs (update_one rejects (operation_of r) c).2) = None) as H1.
    { apply (fmap_None snd). rewrite upsert_selects by done.
      rewrite decide_False by done. by rewrite Hfind2. }
    assert (list_find (matches {[ "name" := VString (Name r) ]})
              (docs (update_one rejects (operation_of r2) c).2) = None) as H2.
    { apply (fmap_None snd). rewrite upsert_selects by done.
      rewrite decide_False by (by apply not_eq_sym). by rewrite Hfind. }
    rewrite (upsert_inserted r2 _ Hidx1 Hacc2 H1).
    rewrite (upsert_inserted r _ Hidx2 Hacc H2). simpl.
    rewrite (upsert_inserted r c Hidx Hacc Hfind),
      (upsert_inserted r2 c Hidx Hacc2 Hfind2).
    simpl. rewrite <- !(assoc_L (++)). apply Permutation_app_head. simpl.
    apply perm_swap.
  - by rewrite !update_one_indexes.
  - intros n.
    rewrite (upsert_selects r2 _ n Hidx1 Hacc2), (upsert_selects r _ n Hidx2 Hacc).
    rewrite (upsert_selects r c _ Hidx Hacc), (upsert_selects r2 c _ Hidx Hacc2).
    rewrite (upsert_selects r c _ Hidx Hacc), (upsert_selects r2 c _ Hidx Hacc2).
    rewrite (decide_False (P := Name r2 = Name r)) by done.
    rewrite (decide_False (P := Name r = Name r2)) by (by apply not_eq_sym).
    rewrite Hfind, Hfind2. simpl.
    destruct (decide (n = Name r2)), (decide (n = Name r)); congruence.
Qed.

(** An upsert that a later accepted operation of the run overwrites makes
    no difference to the documents the run leaves. *)
Lemma execute_overwrites r rs c :
  only_name_index c →
  Exists (λ r2, Name r2 = Name r ∧ rejects (operation_of r2) = None) rs →
  same_documents
    (execute rejects false (operation_of <$> rs)
       (update_one rejects (operation_of r) c).2).2
    (execute rejects false (operation_of <$> rs) c).2.
Proof.
  intros Hidx Hex.
  destruct (rejects (operation_of r)) as [e|] eqn:Hacc.
  { by rewrite (upsert_rejected r c e). }
  revert c Hidx.
  induction Hex as [r2 rs [Hn Hacc2]|r2 rs Hex IH]; intros c Hidx.
  - rewrite fmap_cons, !execute_unordered_cons. simpl.
    by rewrite upsert_absorb.
  - rewrite fmap_cons, !execute_unordered_cons. simpl.
    destruct (decide (Name r2 = Name r)) as [Hn|Hn].
    + destruct (rejects (operation_of r2)) as [e2|] eqn:Hacc2.
      * rewrite !(upsert_rejected r2 _ e2) by done. by apply IH.
      * by rewrite upsert_absorb.
    + eapply same_documents_trans; [|apply IH, update_one_upsert_indexes, Hidx].
      apply execute_same_documents; [by do 2 apply update_one_upsert_indexes|].
      by apply upsert_swap.
Qed.

(** Running [rs2] after [rs1] leaves the documents that [rs2] alone leaves,
    when every accepted operation of [rs1] is overwritten by one of [rs2]. *)
Lemma execute_after rs1 rs2 c :
  only_name_index c →
  (∀ r, r ∈ rs1 → rejects (operation_of r) = None →
     Exists (λ r2, Name r2 = Name r ∧ rejects (operation_of r2) = None) rs2) →
  same_documents
    (execute rejects false (operation_of <$> rs2)
       (execute rejects false (operation_of <$> rs1) c).2).2
    (execute rejects false (operation_of <$> rs2) c).2.
Proof.
  revert c. induction rs1 as [|r rs1 IH]; intros c Hidx Hover; [done|].
  rewrite fmap_cons, execute_unordered_cons. simpl.
  eapply same_documents_trans.
  { apply IH; [by apply update_one_upsert_indexes|].
    intros x Hx. apply Hover. by right. }
  destruct (rejects (operation_of r)) as [e|] eqn:Hacc.
  { by rewrite (upsert_rejected r c e). }
  apply execute_overwrites; [done|]. apply Hover; [by left|done].
Qed.

(** A run whose accepted operations all find their name stored inserts
    nothing. *)
Lemma execute_stored_names rs c :
  only_name_index c →
  (∀ r, r ∈ rs → rejects (operation_of r) = None → present (Name r) c) →
  length (docs (execute rejects false (operation_of <$> rs) c).2)
  = length (docs c).
Proof.
  revert c. induction rs as [|r rs IH]; intros c Hidx Hp; [done|].
  rewrite fmap_cons, execute_unordered_cons. simpl.
  rewrite IH; [|by apply update_one_upsert_indexes|].
  - destruct (rejects (operation_of r)) as [e|] eqn:Hacc.
    { by rewrite (upsert_rejected r c e). }
    destruct (proj1 (present_find _ _) (Hp r ltac:(by left) Hacc))
      as (i & d & Hfind).
    rewrite (upsert_matched r c i d) by done. simpl.
    by rewrite length_insert.
  - intros x Hx Hacc. apply upsert_keeps_present; [done|].
    apply Hp; [by right|done].
Qed.

Lemma execute_stores r rs c :
  only_name_index c → r ∈ rs → rejects (operation_of r) = None →
  present (Name r) (execute rejects false (operation_of <$> rs) c).2.
Proof.
  revert c. induction rs as [|r0 rs IH]; intros c Hidx Hr Hacc.
  { by apply elem_of_nil in Hr. }
  rewrite fmap_cons, execute_unordered_cons. simpl.
  apply elem_of_cons in Hr as [->|Hr].
  - apply execute_keeps_present; [by apply update_one_upsert_indexes|].
    by apply upsert_present.
  - apply IH; [by apply update_one_upsert_indexes|done..].
Qed.
End resubmission.

(** When the records of a batch that share a name are identical, a second
    submission finds every record settled, in whatever order the server
    runs either submission. *)
Lemma resubmission_consistent
    (rejects : UpdateOneModel → option error) (sch1 sch2 : Schedule)
    (w : World) (companies : list Company) :
  only_name_index (coll w) →
  (∀ r1 r2, r1 ∈ companies → r2 ∈ companies → Name r1 = Name r2 → r1 = r2) →
  let first := run rejects sch1 (ProcessBatch companies) w in
  let second := run rejects sch2 (ProcessBatch companies) first.1.2 in
  coll_of second = coll_of first ∧
  (value_of second).1 = 0 ∧
  count is_inserted (batch_outcomes rejects sch2 companies (coll_of first)) = 0 ∧
  count is_modified (batch_outcomes rejects sch2 companies (coll_of first)) = 0.
Proof.
  intros Hidx Hcons first second.
  assert (only_name_index (coll_of first) ∧
          ∀ r, r ∈ companies → settled rejects r (coll_of first)) as [Hidx1 Hset].
  { destruct (decide (companies = [])) as [->|Hne].
    { split; [done|]. intros r Hr. by apply elem_of_nil in Hr. }
    unfold first.
    destruct (run_ProcessBatch rejects sch1 companies w Hne) as [-> _].
    unfold batch_collection.
    destruct (order_operations sch1 companies) as (rs & -> & Hperm).
    split; [by apply execute_only_name_index|].
    intros r Hr. apply execute_settles; [done| |by rewrite Hperm].
    intros r1 r2 H1 H2. apply Hcons; by rewrite <- Hperm. }
  assert (batch_collection rejects sch2 companies (coll_of first) = coll_of first ∧
          Forall quiet (batch_outcomes rejects sch2 companies (coll_of first)))
    as [Hsame Hquiet].
  { unfold batch_collection, batch_outcomes.
    destruct (order_operations sch2 companies) as (rs & -> & Hperm).
    apply execute_settled_noop; [done|].
    intros r Hr. apply Hset. by rewrite <- Hperm. }
  apply count_quiet in Hquiet as [Hmod Hins].
  destruct (decide (companies = [])) as [->|Hne]; [done|].
  destruct (run_ProcessBatch rejects sch2 companies first.1.2 Hne) as [Hc Hv].
  fold second in Hc, Hv. change (coll first.1.2) with (coll_of first) in Hc, Hv.
  split_and!; [congruence| |done|done].
  rewrite Hv, Hmod, Hins. by destruct (bulk_error _).
Qed.

(** When the server runs both submissions in the same order, the second
    one ends where the first one ended, whatever the batch holds. *)
Lemma resubmission_same_order
    (rejects : UpdateOneModel → option error) (sch1 sch2 : Schedule)
    (w : World) (companies : list Company) :
  only_name_index (coll w) →
  order sch2 (operation_of <$> companies) = order sch1 (operation_of <$> companies) →
  let first := run rejects sch1 (ProcessBatch companies) w in
  let second := run rejects sch2 (ProcessBatch companies) first.1.2 in
  coll_of second = coll_of first.
Proof.
  intros Hidx Horder first second.
  destruct (decide (companies = [])) as [->|Hne]; [done|].
  destruct (run_ProcessBatch rejects sch2 companies first.1.2 Hne) as [Hc _].
  fold second in Hc. change (coll first.1.2) with (coll_of first) in Hc.
  rewrite Hc. unfold first.
  destruct (run_ProcessBatch rejects sch1 companies w Hne) as [-> _].
  unfold batch_collection. rewrite Horder.
  destruct (order_operations sch1 companies) as (rs & -> & _).
  by apply execute_twice.
Qed.

(** Whatever order the server picks for each of the two submissions, the
    second one leaves the documents a single submission leaves, namely one
    run in the order of the second. *)
Lemma resubmission_once
    (rejects : UpdateOneModel → option error) (sch1 sch2 : Schedule)
    (w : World) (companies : list Company) :
  only_name_index (coll w) →
  let first := run rejects sch1 (ProcessBatch companies) w in
  let second := run rejects sch2 (ProcessBatch companies) first.1.2 in
  let once := run rejects sch2 (ProcessBatch companies) w in
  same_documents (coll_of second) (coll_of once).
Proof.
  intros Hidx first second once.
  destruct (decide (companies = [])) as [->|Hne]; [done|].
  destruct (run_ProcessBatch rejects sch2 companies first.1.2 Hne) as [Hc _].
  fold second in Hc. change (coll first.1.2) with (coll_of first) in Hc.
  rewrite Hc. unfold once, first.
  destruct (run_ProcessBatch rejects sch2 companies w Hne) as [-> _].
  destruct (run_ProcessBatch rejects sch1 companies w Hne) as [-> _].
  unfold batch_collection.
  destruct (order_operations sch1 companies) as (rs1 & -> & Hperm1).
  destruct (order_operations sch2 companies) as (rs2 & -> & Hperm2).
  apply execute_after; [done|].
  intros r Hr Hacc. apply Exists_exists. exists r. split; [|done].
  by rewrite Hperm2, <- Hperm1.
Qed.

(** The second submission finds every name it writes stored, so it inserts
    nothing, whatever order the server picks for either submission. *)
Lemma resubmission_inserts_nothing
    (rejects : UpdateOneModel → option error) (sch1 sch2 : Schedule)
    (w : World) (companies : list Company) :
  only_name_index (coll w) →
  let first := run rejects sch1 (ProcessBatch companies) w in
  let second := run rejects sch2 (ProcessBatch companies) first.1.2 in
  count is_inserted (batch_outcomes rejects sch2 companies (coll_of first)) = 0 ∧
  length (docs_of second) = length (docs_of first).
Proof.
  intros Hidx first second.
  destruct (decide (companies = [])) as [->|Hne].
  { split; [|done]. unfold batch_outcomes. simpl.
    by rewrite (proj1 (Permutation_nil_r _) (order_perm sch2 [])). }
  destruct (run_ProcessBatch rejects sch2 companies first.1.2 Hne) as [Hc _].
  fold second in Hc. change (coll first.1.2) with (coll_of first) in Hc.
  assert (length (docs_of second) = length (docs_of first)) as Hlen.
  { unfold docs_of. change (coll second.1.2) with (coll_of second).
    rewrite Hc. change (coll first.1.2) with (coll_of first).
    unfold first.
    destruct (run_ProcessBatch rejects sch1 companies w Hne) as [-> _].
    unfold batch_collection.
    destruct (order_operations sch1 companies) as (rs1 & -> & Hperm1).
    destruct (order_operations sch2 companies) as (rs2 & -> & Hperm2).
    apply execute_stored_names; [by apply execute_only_name_index|].
    intros r Hr Hacc. apply execute_stores; [done| |done].
    by rewrite Hperm1, <- Hperm2. }
  split; [|done].
  pose proof (execute_unordered_inserted rejects
    (order sch2 (operation_of <$> companies)) (coll_of first)) as Hins.
  fold (batch_collection rejects sch2 companies (coll_of first)) in Hins.
  fold (batch_outcomes rejects sch2 companies (coll_of first)) in Hins.
  rewrite <- Hc in Hins. unfold docs_of in Hlen.
  change (coll second.1.2) with (coll_of second) in Hlen.
  change (coll first.1.2) with (coll_of first) in Hlen. lia.
Qed.

(** C3.  Submitting a batch twice leaves what submitting it once leaves,
    whatever the batch holds and whatever operations the store refuses.
    When the server runs the second submission in the order of the first,
    the collection is exactly as the first submission left it.  In
    whatever order it runs either submission, the collection holds the
    documents that one submission (run in the order of the second) leaves,
    and the second call inserts no document: its upserted count is 0 and
    the collection keeps its size.  When the records of the batch that
    share a name are identical (in particular when the names are
    distinct), the collection is exactly as the first submission left it
    in any order, and the second call modifies nothing and reports the
    count 0.  (The collection carries no unique index besides the one on
    [name].) *)
Theorem resubmission_leaves_store
    (rejects : UpdateOneModel → option error) (sch1 sch2 : Schedule)
    (w : World) (companies : list Company) :
  only_name_index (coll w) →
  let first := run rejects sch1 (ProcessBatch companies) w in
  let second := run rejects sch2 (ProcessBatch companies) first.1.2 in
  let once := run rejects sch2 (ProcessBatch companies) w in
  (order sch2 (operation_of <$> companies)
     = order sch1 (operation_of <$> companies) →
   coll_of second = coll_of first) ∧
  (docs_of second ≡ₚ docs_of once ∧
   indexes (coll_of second) = indexes (coll_of once)) ∧
  (count is_inserted (batch_outcomes rejects sch2 companies (coll_of first)) = 0 ∧
   length (docs_of second) = length (docs_of first)) ∧
  ((∀ r1 r2, r1 ∈ companies → r2 ∈ companies → Name r1 = Name r2 → r1 = r2) →
   coll_of second = coll_of first ∧
   (value_of second).1 = 0 ∧
   count is_modified (batch_outcomes rejects sch2 companies (coll_of first)) = 0).
Proof.
  intros Hidx first second once.
  pose proof (resubmission_once rejects sch1 sch2 w companies Hidx)
    as (Hperm & Hindexes & _).
  pose proof (resubmission_inserts_nothing rejects sch1 sch2 w companies Hidx)
    as Hnone.
  split; [intros Horder; by apply resubmission_same_order|].
  split; [done|]. split; [exact Hnone|].
  intros Hcons.
  by destruct (resubmission_consistent rejects sch1 sch2 w companies Hidx Hcons)
    as (? & ? & _ & ?).
Qed.

(** The order matters to a batch that names one company twice with
    different addresses: run in the submitted order it leaves [A/y], and a
    second submission run in the opposite order leaves [A/x], which is
    what one submission run in that order leaves. *)
Example resubmission_in_another_order :
  let companies := [A_x; A_y] in
  let first := run accept_all in_order (ProcessBatch companies) empty_world in
  let second := run accept_all reversed (ProcessBatch companies) first.1.2 in
  let once := run accept_all reversed (ProcessBatch companies) empty_world in
  cursor_All (docs_of first) = inr [A_y] ∧
  cursor_All (docs_of second) = inr [A_x] ∧
  cursor_All (docs_of once) = inr [A_x].
Proof. split_and!; by_compute. Qed.

Lemma resubmission_leaves_store_witness :
  let companies := [A_x; C_u; A_y] in
  let first := run accept_all reversed (ProcessBatch companies) empty_world in
  let second := run accept_all reversed (ProcessBatch companies) first.1.2 in
  only_name_index (coll empty_world) ∧
  cursor_All (docs_of first) = inr [A_x; C_u] ∧
  value_of first = (3, None) ∧
  value_of second = (2, None) ∧
  coll_of second = coll_of first ∧
  count is_inserted (batch_outcomes accept_all reversed companies (coll_of first)) = 0.
Proof.
  intros companies first second.
  assert (only_name_index (coll empty_world)) as Hidx
    by (by intros k Hk; vm_compute in Hk; apply elem_of_nil in Hk).
  split; [exact Hidx|]. do 3 (split; [by_compute|]).
  destruct (resubmission_leaves_store accept_all reversed reversed empty_world
              companies Hidx) as (Hsame & _ & (Hnone & _) & _).
  split; [exact (Hsame eq_refl) | exact Hnone].
Defined.

Lemma at_most_one_record_per_name_witness :
  let w0 := world_of [company_doc B_z; company_doc A_y] [] in
  let started := run accept_all in_order (NewBatchProcessor "mongodb://localhost:27017" 100 4) w0 in
  let ops := [OpProcessBatch [A_x; B_z; A_y] reversed;
              OpUpdateTreatedField "A";
              OpProcessBatch [C_u; A_x] in_order;
              OpFetchAllCompanies] in
  value_of started = None ∧
  (length (records_named "A" (coll (history accept_all started.1.2 ops))) ≤ 1)%nat.
Proof.
  intros w0 started ops. split; [by_compute|].
  apply (at_most_one_record_per_name accept_all in_order
           "mongodb://localhost:27017" 100 4 w0 ops "A").
  by_compute.
Defined.

Lemma unordered_batch_applies_accepted_witness :
  let after := run rejects_B reversed (ProcessBatch [A_x; B_z; C_u]) empty_world in
  is_Some (value_of after).2 ∧
  (∃ d, d ∈ docs_of after ∧ carries d C_u) ∧
  (∃ d, d ∈ docs_of after ∧ carries d A_x).
Proof.
  intros after.
  assert (only_name_index (coll empty_world)) as Hidx.
  { intros k Hk. vm_compute in Hk. by apply elem_of_nil in Hk. }
  assert (∀ r r' : Company, r ∈ [A_x; B_z; C_u] → r' ∈ [A_x; B_z; C_u] →
            Name r' = Name r → r' = r) as Hone.
  { intros r r' H1 H2.
    repeat (apply elem_of_cons in H1 as [->|H1]);
      repeat (apply elem_of_cons in H2 as [->|H2]);
      try (by apply elem_of_nil in H1); try (by apply elem_of_nil in H2);
      by intros ?. }
  assert (C_u ∈ [A_x; B_z; C_u]) as HC by (do 2 right; left).
  assert (A_x ∈ [A_x; B_z; C_u]) as HA by left.
  split; [by_compute|]. split.
  - destruct (unordered_batch_applies_accepted rejects_B reversed empty_world
                [A_x; B_z; C_u] C_u Hidx HC eq_refl) as (_ & _ & Hcarried).
    apply Hcarried. intros r' Hr'. by apply Hone.
  - destruct (unordered_batch_applies_accepted rejects_B reversed empty_world
                [A_x; B_z; C_u] A_x Hidx HA eq_refl) as (_ & _ & Hcarried).
    apply Hcarried. intros r' Hr'. by apply Hone.
Defined.

Lemma ProcessBatch_error_count_zero_witness :
  let bw := BulkWrite (operation_of <$> [A_x; B_z; C_u]) {| Ordered := false |} in
  let resp := handle rejects_B in_order _ bw empty_world in
  let e := "bulk write exception: write errors: [document failed validation]" in
  (interp (handle rejects_B in_order) (ProcessBatch [A_x; B_z; C_u]) empty_world).1
  = ((0, Some (Errorf "failed to process batch: " e)), resp.2) ∧
  docs (coll resp.2) = [company_doc A_x; company_doc C_u].
Proof.
  intros bw resp e. split; [|by_compute].
  apply (ProcessBatch_error_count_zero World (handle rejects_B in_order)
           empty_world resp.2 [A_x; B_z; C_u] resp.1.1 e); [done|].
  by_compute.
Defined.


(** Against every implementation of the store: when the bulk write of a
    non-empty batch succeeds with counters whose sum fits an [int64], the
    count returned is that sum. *)
Lemma ProcessBatch_success_count
    (S : Type) (handler : ∀ X, Call X → S → X * S) (s s' : S)
    (companies : list Company) (result : BulkWriteResult.t) :
  companies ≠ [] →
  handler _ (BulkWrite (operation_of <$> companies) {| Ordered := false |}) s
    = ((result, None), s') →
  - 2^63 ≤ BulkWriteResult.ModifiedCount result
           + BulkWriteResult.UpsertedCount result < 2^63 →
  (interp handler (ProcessBatch companies) s).1.1
  = (BulkWriteResult.ModifiedCount result + BulkWriteResult.UpsertedCount result,
     None).
Proof.
  intros Hne Hresp Hfit. rewrite interp_ProcessBatch by done. simpl.
  rewrite Hresp.
  destruct (interp_after_BulkWrite_ok handler result s') as (s'' & fmt & args & ->).
  simpl. unfold int_of_int64, add64. by rewrite !wrap64_small by (by rewrite ?wrap64_small).
Qed.

(** C5. When [ProcessBatch] succeeds on a non-empty batch, the count it
    returns is the number of operations that changed a stored document in
    place plus the number of documents the upserts inserted; the latter is
    the number of documents by which the collection grew. *)
Theorem ProcessBatch_count_is_modified_plus_upserted
    (rejects : UpdateOneModel → option error) (sch : Schedule) (w : World)
    (companies : list Company) (n : Z) :
  companies ≠ [] →
  Z.of_nat (length companies) < 2^63 →
  let r := run rejects sch (ProcessBatch companies) w in
  value_of r = (n, None) →
  let os := batch_outcomes rejects sch companies (coll w) in
  n = count is_modified os + count is_inserted os ∧
  count is_inserted os
  = Z.of_nat (length (docs_of r)) - Z.of_nat (length (docs (coll w))).
Proof.
  intros Hne Hlen r Hval os.
  destruct (run_ProcessBatch rejects sch companies w Hne) as [Hc Hv].
  fold r in Hc, Hv. fold os in Hv.
  assert (count is_inserted os
          = Z.of_nat (length (docs_of r)) - Z.of_nat (length (docs (coll w))))
    as Hins.
  { change (docs_of r) with (docs (coll_of r)). rewrite Hc.
    unfold batch_collection. rewrite execute_unordered_inserted.
    fold (batch_outcomes rejects sch companies (coll w)). fold os. lia. }
  split; [|done].
  rewrite Hval in Hv. destruct (bulk_error os); [done|].
  injection Hv as ->.
  assert (Z.of_nat (length os) = Z.of_nat (length companies)) as Hos.
  { unfold os, batch_outcomes. rewrite execute_unordered_length.
    by rewrite (Permutation_length (order_perm sch _)), length_fmap. }
  pose proof (count_modified_inserted os).
  pose proof (count_nonneg is_modified os).
  pose proof (count_nonneg is_inserted os).
  unfold int_of_int64, add64. rewrite !wrap64_small; rewrite ?wrap64_small; lia.
Qed.

Lemma ProcessBatch_count_is_modified_plus_upserted_witness :
  let w := world_of [company_doc A_x] [] in
  let r := run accept_all in_order (ProcessBatch [A_y; B_z; C_u]) w in
  value_of r = (3, None) ∧
  3 = count is_modified (batch_outcomes accept_all in_order [A_y; B_z; C_u] (coll w))
      + count is_inserted (batch_outcomes accept_all in_order [A_y; B_z; C_u] (coll w)) ∧
  count is_inserted (batch_outcomes accept_all in_order [A_y; B_z; C_u] (coll w))
  = Z.of_nat (length (docs_of r)) - Z.of_nat (length (docs (coll w))).
Proof.
  intros w r. split; [by_compute|].
  apply (ProcessBatch_count_is_modified_plus_upserted accept_all in_order w
           [A_y; B_z; C_u] 3); [done|by_compute|by_compute].
Defined.

(** ** Marking a company as treated *)

Lemma list_find_filter {A : Type} (P : A → Prop) `{!∀ x, Decision (P x)}
    (l : list A) :
  match list_find P l with
  | None => filter P l = []
  | Some (i, x) => ∃ rest, filter P l = x :: rest
  end.
Proof.
  induction l as [|y l IH]; simpl; [done|].
  rewrite filter_cons. case_decide; simpl; [by eexists|].
  destruct (list_find P l) as [[i x]|]; simpl; done.
Qed.

Lemma records_named_find (n : string) (c : Collection) :
  match list_find (matches {[ "name" := VString n ]}) (docs c) with
  | None => records_named n c = []
  | Some (i, d) => ∃ rest, records_named n c = d :: rest
  end.
Proof.
  unfold records_named.
  rewrite (list_find_ext _ (λ d : Document, d !! "name" = Some (VString n)))
    by apply matches_name.
  apply (list_find_filter (λ d : Document, d !! "name" = Some (VString n))).
Qed.

Section treated.
Variable rejects : UpdateOneModel → option error.

Lemma set_treated (d : Document) :
  ({[ "treated" := VBool true ]} : Document) ∪ d = <["treated" := VBool true]> d.
Proof. by rewrite insert_union_singleton_l. Qed.

Lemma set_treated_fixed (d : Document) :
  <["treated" := VBool true]> d = d ↔ d !! "treated" = Some (VBool true).
Proof.
  split; [|apply insert_id].
  intros <-. apply lookup_insert_eq.
Qed.

Lemma update_one_treated n c :
  only_name_index c →
  rejects (treated_update n) = None →
  update_one rejects (treated_update n) c =
    match list_find (matches {[ "name" := VString n ]}) (docs c) with
    | None => (NoMatch, c)
    | Some (i, d) =>
        if decide (d !! "treated" = Some (VBool true)) then (Matched false, c)
        else (Matched true,
              {| docs := <[i := <["treated" := VBool true]> d]> (docs c);
                 indexes := indexes c |})
    end.
Proof.
  intros Hidx Hacc. unfold update_one. rewrite Hacc.
  change (Update (treated_update n) !! "$set")
    with (Some ({[ "treated" := VBool true ]} : Document)).
  change (Filter (treated_update n)) with ({[ "name" := VString n ]} : Document).
  change (Upsert (treated_update n)) with (@None bool).
  destruct (list_find _ _) as [[i d]|]; [|done].
  rewrite set_treated.
  destruct (decide (d !! "treated" = Some (VBool true))) as [Ht|Ht].
  - rewrite decide_True; [done|]. by apply set_treated_fixed.
  - rewrite decide_False by (by rewrite set_treated_fixed).
    assert (duplicate_key (indexes c) (Some d) (delete i (docs c))
              (<["treated" := VBool true]> d) = None) as ->; [|done].
    unfold duplicate_key. apply fmap_None, list_find_None, Forall_forall.
    intros k ->%Hidx [Hchanged _]. apply Hchanged. simpl.
    unfold index_key. by rewrite lookup_insert_ne.
Qed.

Lemma run_UpdateTreatedField sch n (w : World) :
  let r := run rejects sch (UpdateTreatedField n) w in
  let o := (update_one rejects (treated_update n) (coll w)).1 in
  coll_of r = (update_one rejects (treated_update n) (coll w)).2 ∧
  value_of r =
    match o with
    | Rejected msg =>
        Some (Errorf "failed to update treated field: "
                ("write exception: write errors: [" +:+ msg +:+ "]"))
    | NoMatch => Some (Errorf "company not found: " n)
    | Matched false => Some (Errorf "company found but no update performed: " n)
    | Matched true => None
    | Inserted => Some (Errorf "company not found: " n)
    end.
Proof.
  unfold run, coll_of, value_of, UpdateTreatedField. simpl.
  unfold collection_UpdateOne. fold (treated_update n).
  destruct (update_one rejects (treated_update n) (coll w)) as [o c'].
  by destruct o as [msg|[]| |].
Qed.
End treated.

(** C7. [UpdateTreatedField] on a store that accepts the update, over a
    collection whose only unique index is the one on [name]:
    - when no stored document has the name, it returns "company not
      found" and the collection is unchanged;
    - when the first (under the unique index: the only) document with the
      name has [treated = true], it returns "company found but no update
      performed" and the collection is unchanged;
    - otherwise it returns [nil], and that document, and no other, now
      has [treated = true]. *)
Theorem UpdateTreatedField_trichotomy
    (rejects : UpdateOneModel → option error) (sch : Schedule) (w : World)
    (companyName : string) :
  only_name_index (coll w) →
  rejects (treated_update companyName) = None →
  let r := run rejects sch (UpdateTreatedField companyName) w in
  (records_named companyName (coll w) = [] →
     value_of r = Some (Errorf "company not found: " companyName) ∧
     coll_of r = coll w) ∧
  (∀ d rest, records_named companyName (coll w) = d :: rest →
     d !! "treated" = Some (VBool true) →
     value_of r = Some (Errorf "company found but no update performed: "
                               companyName) ∧
     coll_of r = coll w) ∧
  (∀ d rest, records_named companyName (coll w) = d :: rest →
     d !! "treated" ≠ Some (VBool true) →
     value_of r = None ∧
     ∃ i, docs (coll w) !! i = Some d ∧
          docs_of r = <[i := <["treated" := VBool true]> d]> (docs (coll w)) ∧
          records_named companyName (coll_of r)
          = <["treated" := VBool true]> d :: rest).
Proof.
  intros Hidx Hacc r.
  destruct (run_UpdateTreatedField rejects sch companyName w) as [Hc Hv].
  fold r in Hc, Hv.
  rewrite update_one_treated in Hc, Hv by done.
  pose proof (records_named_find companyName (coll w)) as Hnamed.
  destruct (list_find _ _) as [[i d]|] eqn:Hfind.
  - destruct Hnamed as [rest Hnamed]. split_and!.
    + intros Hnil. by rewrite Hnil in Hnamed.
    + intros d' rest' Heq Ht. rewrite Heq in Hnamed. simplify_eq.
      by rewrite decide_True in Hc, Hv by done.
    + intros d' rest' Heq Ht. rewrite Heq in Hnamed. simplify_eq.
      rewrite decide_False in Hc, Hv by done. simpl in Hc, Hv.
      split; [done|]. exists i.
      apply list_find_Some in Hfind as (Hi & Hm%matches_name & Hleast).
      split; [done|].
      split; [change (docs_of r) with (docs (coll_of r)); by rewrite Hc|].
      unfold records_named in *. rewrite Hc. simpl.
      rewrite insert_take_drop by eauto using lookup_lt_Some.
      rewrite <- (take_drop_middle (docs (coll w)) i d) in Heq by done.
      rewrite filter_app, filter_cons in Heq |- *.
      rewrite decide_True in Heq by done.
      rewrite decide_True by (by rewrite lookup_insert_ne).
      assert (filter (λ d0 : Document, d0 !! "name" = Some (VString companyName))
                (take i (docs (coll w))) = []) as Htake.
      { destruct (filter _ (take i _)) as [|y ys] eqn:Hf; [done|].
        assert (y ∈ filter (λ d0 : Document, d0 !! "name" = Some (VString companyName))
                  (take i (docs (coll w)))) as [Hy (j & Hj)%list_elem_of_lookup]%list_elem_of_filter
          by (rewrite Hf; left).
        apply lookup_take_Some in Hj as [Hj Hlt].
        by destruct (Hleast j y Hj Hlt); apply matches_name. }
      rewrite Htake in Heq |- *. simpl in *. by simplify_eq.
  - split_and!; [done|intros d rest Heq; by rewrite Heq in Hnamed..].
Qed.

Lemma UpdateTreatedField_trichotomy_witness :
  let w := world_of [company_doc A_x; company_doc B_z] ["name"] in
  value_of (run accept_all in_order (UpdateTreatedField "C") w)
    = Some "company not found: C" ∧
  value_of (run accept_all in_order (UpdateTreatedField "B") w)
    = Some "company found but no update performed: B" ∧
  value_of (run accept_all in_order (UpdateTreatedField "A") w) = None ∧
  records_named "A" (coll_of (run accept_all in_order (UpdateTreatedField "A") w))
    = [company_doc (mkCompany "A" "x" true)].
Proof.
  intros w.
  assert (only_name_index (coll w)) as Hidx.
  { intros k Hk. vm_compute in Hk. by apply list_elem_of_singleton in Hk. }
  split_and!.
  - destruct (UpdateTreatedField_trichotomy accept_all in_order w "C" Hidx eq_refl)
      as (Hnone & _ & _).
    apply Hnone. by_compute.
  - destruct (UpdateTreatedField_trichotomy accept_all in_order w "B" Hidx eq_refl)
      as (_ & Hnoop & _).
    apply (Hnoop (company_doc B_z) []); by_compute.
  - destruct (UpdateTreatedField_trichotomy accept_all in_order w "A" Hidx eq_refl)
      as (_ & _ & Hok).
    apply (Hok (company_doc A_x) []); by_compute.
  - by_compute.
Defined.

(** C8. A successful [UpdateTreatedField] changed one stored document, one
    whose name is the given one: in it [treated] is now [true] and every
    other field, [name] and [address] among them, is as before; every
    other document, the number and order of the documents and the indexes
    are as before. *)
Theorem UpdateTreatedField_touches_only_treated
    (rejects : UpdateOneModel → option error) (sch : Schedule) (w : World)
    (companyName : string) :
  let r := run rejects sch (UpdateTreatedField companyName) w in
  value_of r = None →
  ∃ i d d',
    docs (coll w) !! i = Some d ∧
    d !! "name" = Some (VString companyName) ∧
    docs_of r !! i = Some d' ∧
    d' !! "treated" = Some (VBool true) ∧
    (∀ k, k ≠ "treated" → d' !! k = d !! k) ∧
    (∀ j, j ≠ i → docs_of r !! j = docs (coll w) !! j) ∧
    length (docs_of r) = length (docs (coll w)) ∧
    indexes (coll_of r) = indexes (coll w).
Proof.
  intros r Hok.
  destruct (run_UpdateTreatedField rejects sch companyName w) as [Hc Hv].
  fold r in Hc, Hv. rewrite Hok in Hv.
  change (docs_of r) with (docs (coll_of r)). rewrite Hc.
  rewrite update_one_indexes. clear Hc.
  revert Hv. unfold update_one.
  destruct (rejects (treated_update companyName)); [done|].
  change (Update (treated_update companyName) !! "$set")
    with (Some ({[ "treated" := VBool true ]} : Document)).
  change (Filter (treated_update companyName))
    with ({[ "name" := VString companyName ]} : Document).
  change (Upsert (treated_update companyName)) with (@None bool).
  destruct (list_find _ _) as [[i d]|] eqn:Hfind; [|done].
  rewrite set_treated.
  case_decide; [done|]. destruct (duplicate_key _ _ _ _); [done|].
  intros _. simpl.
  apply list_find_Some in Hfind as (Hi & Hm%matches_name & _).
  exists i, d, (<["treated" := VBool true]> d).
  split_and!; [done|done| | | | | |done].
  - apply list_lookup_insert_eq. eauto using lookup_lt_Some.
  - apply lookup_insert_eq.
  - intros k Hk. by apply lookup_insert_ne.
  - intros j Hj. by apply list_lookup_insert_ne.
  - apply length_insert.
Qed.

Lemma UpdateTreatedField_touches_only_treated_witness :
  let w := world_of [company_doc B_z; company_doc A_x; company_doc C_u] ["name"] in
  let r := run accept_all in_order (UpdateTreatedField "A") w in
  value_of r = None ∧
  ∃ i d d',
    docs (coll w) !! i = Some d ∧
    d !! "name" = Some (VString "A") ∧
    docs_of r !! i = Some d' ∧
    d' !! "treated" = Some (VBool true) ∧
    (∀ k, k ≠ "treated" → d' !! k = d !! k) ∧
    (∀ j, j ≠ i → docs_of r !! j = docs (coll w) !! j) ∧
    length (docs_of r) = length (docs (coll w)) ∧
    indexes (coll_of r) = indexes (coll w).
Proof.
  intros w r. split; [by_compute|].
  apply (UpdateTreatedField_touches_only_treated accept_all in_order w "A").
  by_compute.
Defined.

(** ** The order of a sorted query *)

Lemma key_le_refl : Reflexive key_le.
Proof. intros [[s|[]]|]; simpl; done. Qed.
#[global] Existing Instance key_le_refl.

Lemma key_le_trans : Transitive key_le.
Proof.
  intros [[s|x]|] [[t|y]|] [[u|z]|]; simpl; try done.
  - apply transitivity.
  - destruct x, y, z; done.
Qed.
#[global] Existing Instance key_le_trans.

Lemma key_le_total : Total key_le.
Proof.
  intros [[s|x]|] [[t|y]|]; simpl; auto.
  - apply total, _.
  - destruct x, y; auto.
Qed.
#[global] Existing Instance key_le_total.

Lemma key_le_antisym a b : key_le a b → key_le b a → a = b.
Proof.
  destruct a as [[s|x]|], b as [[t|y]|]; simpl; try done.
  - intros H1 H2. do 2 f_equal. by apply (anti_symm String.le).
  - destruct x, y; done.
Qed.

Lemma doc_le_trans spec : Transitive (doc_le spec).
Proof.
  induction spec as [|[k dir] rest IH]; intros d1 d2 d3; simpl; [done|].
  destruct (decide (0 < dir)); intros [H12 R12] [H23 R23].
  - split; [by etrans|]. intros H31. etrans; [apply R12|apply R23]; by etrans.
  - split; [by etrans|]. intros H13. etrans; [apply R12|apply R23]; by etrans.
Qed.
#[global] Existing Instance doc_le_trans.

Lemma doc_le_total spec : Total (doc_le spec).
Proof.
  induction spec as [|[k dir] rest IH]; intros d1 d2; simpl; [by left|].
  set (a := if decide (0 < dir) then d1 !! k else d2 !! k).
  set (b := if decide (0 < dir) then d2 !! k else d1 !! k).
  destruct (decide (key_le a b)) as [Hab|Hab], (decide (key_le b a)) as [Hba|Hba].
  - destruct (IH d1 d2); [left|right]; done.
  - left. done.
  - right. done.
  - destruct (total key_le a b); done.
Qed.
#[global] Existing Instance doc_le_total.

Lemma matches_empty (d : Document) : matches ∅ d.
Proof. apply map_empty_subseteq. Qed.

Lemma filter_all {A : Type} (P : A → Prop) `{!∀ x, Decision (P x)} (l : list A) :
  (∀ x, P x) → filter P l = l.
Proof.
  intros HP. induction l as [|x l IH]; [done|].
  by rewrite filter_cons, decide_True, IH.
Qed.

Lemma Sorted_impl {A : Type} (R1 R2 : relation A) (l : list A) :
  (∀ x y, R1 x y → R2 x y) → Sorted R1 l → Sorted R2 l.
Proof.
  intros HR. induction 1 as [|x l _ IH Hhd]; constructor; [done|].
  destruct Hhd; constructor; auto.
Qed.

(** What the query of [FetchAllCompanies] selects: every document, sorted
    by [name]. *)
Lemma collection_Find_all (c : Collection) :
  ∃ sorted, collection_Find ∅ (SetSort [("name", 1)] options_Find) c = (sorted, None) ∧
            sorted ≡ₚ docs c ∧
            Sorted (λ d1 d2 : Document, key_le (d1 !! "name") (d2 !! "name")) sorted.
Proof.
  unfold collection_Find. simpl. eexists. split; [done|].
  rewrite (filter_all _ _ matches_empty). split.
  - apply merge_sort_Permutation.
  - eapply Sorted_impl; [|apply (Sorted_merge_sort (doc_le [("name", 1)]))].
    by intros d1 d2 [H _].
Qed.

(** ** Decoding stored documents *)

Lemma decodable_typed (d : Document) : decodable d ↔ typed d.
Proof.
  unfold decodable, typed, string_field, bool_field, decode_Company,
    decode_string, decode_bool.
  destruct (d !! "name") as [[]|], (d !! "address") as [[]|],
    (d !! "treated") as [[]|]; split;
    try (intros [c Hc]; discriminate Hc); try (intros (? & ? & ?); done);
    try done; intros _; by eexists.
Qed.

Lemma decode_company_of (d : Document) :
  decodable d → decode_Company d = inr (company_of d).
Proof. intros [c Hc]. unfold company_of. by rewrite Hc. Qed.

Lemma cursor_All_decodable (l : list Document) :
  Forall decodable l → cursor_All l = inr (company_of <$> l).
Proof.
  induction 1 as [|d l Hd _ IH]; [done|].
  simpl. by rewrite (decode_company_of d Hd), IH.
Qed.

Lemma typed_union (f d : Document) : typed f → typed d → typed (f ∪ d).
Proof.
  unfold typed, string_field, bool_field. rewrite !lookup_union.
  intros (? & ? & ?) (? & ? & ?).
  split_and!;
    repeat match goal with
           | |- context [?m !! ?k] => destruct (m !! k) as [[]|]
           end; done.
Qed.

Lemma typed_company_doc r : typed (company_doc r).
Proof. by split_and!. Qed.

Lemma decoded_name (d : Document) :
  decodable d →
  (d !! "name" = None ∧ Name (company_of d) = "") ∨
  d !! "name" = Some (VString (Name (company_of d))).
Proof.
  intros [c Hc]. unfold company_of. rewrite Hc. revert Hc.
  unfold decode_Company, decode_string, decode_bool.
  destruct (d !! "name") as [[]|], (d !! "address") as [[]|],
    (d !! "treated") as [[]|]; intros Hc; simplify_eq; simpl; auto.
Qed.

Lemma empty_string_le (s : string) : String.le "" s.
Proof. by destruct s. Qed.

Lemma key_le_name_le (d1 d2 : Document) :
  decodable d1 → decodable d2 →
  key_le (d1 !! "name") (d2 !! "name") →
  name_le (company_of d1) (company_of d2).
Proof.
  intros H1 H2. unfold name_le.
  destruct (decoded_name d1 H1) as [[-> ->]| ->].
  { intros _. apply empty_string_le. }
  destruct (decoded_name d2 H2) as [[-> ->]| ->]; done.
Qed.

Lemma Sorted_decoded (l : list Document) :
  Forall decodable l →
  Sorted (λ d1 d2 : Document, key_le (d1 !! "name") (d2 !! "name")) l →
  Sorted name_le (company_of <$> l).
Proof.
  intros Hdec. induction 1 as [|d l _ IH Hhd]; [constructor|].
  apply Forall_cons in Hdec as [Hd Hl]. csimpl. constructor; [by apply IH|].
  destruct Hhd as [|d' l' Hle]; csimpl; constructor.
  apply Forall_cons in Hl as [Hd' _]. by apply key_le_name_le.
Qed.

Lemma name_le_trans : Transitive name_le.
Proof. intros a b c. unfold name_le. apply transitivity. Qed.
#[global] Existing Instance name_le_trans.

Lemma NoDup_fmap_eq {A B : Type} (f : A → B) (l : list A) (x y : A) :
  NoDup (f <$> l) → x ∈ l → y ∈ l → f x = f y → x = y.
Proof.
  induction l as [|z l IH]; csimpl; [by intros _ ?%elem_of_nil|].
  intros [Hz Hnd]%NoDup_cons [->|Hx]%elem_of_cons [->|Hy]%elem_of_cons Hf;
    [done| | |by apply IH].
  - destruct Hz. rewrite Hf. by apply list_elem_of_fmap_2.
  - destruct Hz. rewrite <- Hf. by apply list_elem_of_fmap_2.
Qed.

(** ** Every operation keeps the documents decodable *)

Section typed_store.
Variable rejects : UpdateOneModel → option error.

Lemma typed_operation_of r : typed_model (operation_of r).
Proof.
  split; [by split_and!|].
  intros fields [= <-]. apply typed_company_doc.
Qed.

Lemma typed_treated_update n : typed_model (treated_update n).
Proof. split; [by split_and!|]. intros fields [= <-]. by split_and!. Qed.

Lemma update_one_typed m c :
  typed_model m → Forall typed (docs c) →
  Forall typed (docs (update_one rejects m c).2).
Proof.
  intros [Hfilter Hfields] Hdocs. unfold update_one.
  destruct (rejects m); [done|].
  destruct (Update m !! "$set") as [fields|]; [|done].
  specialize (Hfields fields eq_refl).
  destruct (list_find _ _) as [[i d]|] eqn:Hfind.
  - case_decide; [done|]. destruct (duplicate_key _ _ _ _); [done|]. simpl.
    apply list_find_Some in Hfind as (Hi & _).
    apply Forall_insert; [done|]. apply typed_union; [done|].
    by eapply Forall_lookup_1.
  - case_decide; [|done]. destruct (duplicate_key _ _ _ _); [done|]. simpl.
    apply Forall_app. split; [done|].
    apply Forall_singleton. by apply typed_union.
Qed.

Lemma execute_typed models c :
  Forall typed_model models → Forall typed (docs c) →
  Forall typed (docs (execute rejects false models c).2).
Proof.
  revert c. induction models as [|m rest IH]; intros c Hm Hc; [done|].
  apply Forall_cons in Hm as [Hm Hrest].
  rewrite execute_unordered_cons. simpl.
  apply IH; [done|]. by apply update_one_typed.
Qed.

Lemma run_FetchAllCompanies_coll sch (w : World) :
  coll_of (run rejects sch FetchAllCompanies w) = coll w.
Proof.
  unfold run, coll_of, FetchAllCompanies. simpl.
  by destruct (cursor_All _).
Qed.

Lemma perform_typed (w : World) (op : Operation) :
  Forall typed (docs (coll w)) →
  Forall typed (docs (coll (perform rejects w op))).
Proof.
  intros Hw. destruct op as [companies sch|n| |]; unfold perform.
  - destruct (decide (companies = [])) as [->|Hne]; [done|].
    destruct (run_ProcessBatch rejects sch companies w Hne) as [Hc _].
    unfold coll_of in Hc. rewrite Hc. unfold batch_collection.
    apply execute_typed; [|done].
    rewrite (order_perm sch). apply Forall_fmap, Forall_forall.
    intros r _. apply typed_operation_of.
  - destruct (run_UpdateTreatedField rejects in_order n w) as [Hc _].
    unfold coll_of in Hc. rewrite Hc.
    apply update_one_typed; [apply typed_treated_update|done].
  - pose proof (run_FetchAllCompanies_coll in_order w) as Hc.
    unfold coll_of in Hc. by rewrite Hc.
  - done.
Qed.

Lemma history_typed (w : World) (ops : list Operation) :
  Forall typed (docs (coll w)) →
  Forall typed (docs (coll (history rejects w ops))).
Proof.
  revert w. induction ops as [|op ops IH]; intros w Hw; [done|].
  simpl. apply IH. by apply perform_typed.
Qed.
End typed_store.

(** ** Reading the collection *)

Lemma run_FetchAllCompanies
    (rejects : UpdateOneModel → option error) (sch : Schedule) (w : World) :
  Forall decodable (docs (coll w)) →
  ∃ sorted,
    sorted ≡ₚ docs (coll w) ∧
    Sorted (λ d1 d2 : Document, key_le (d1 !! "name") (d2 !! "name")) sorted ∧
    value_of (run rejects sch FetchAllCompanies w) = (company_of <$> sorted, None).
Proof.
  intros Hdec.
  destruct (collection_Find_all (coll w)) as (sorted & Hfind & Hperm & Hsorted).
  exists sorted. split_and!; [done..|].
  unfold run, value_of, FetchAllCompanies. cbn -[collection_Find].
  rewrite Hfind. cbn -[cursor_All].
  rewrite cursor_All_decodable; [done|]. by rewrite Hperm.
Qed.

(** C9. From a collection whose documents decode into companies, after
    any sequence of the package's operations (batches, treated-updates and
    reads, interleaved), [FetchAllCompanies] succeeds and returns the
    stored companies, each stored document once, in ascending order of
    [name].  When the stored names are distinct, as the unique index has
    them, that order is the only one possible: every ascending
    arrangement of the stored companies is the list returned. *)
Theorem FetchAllCompanies_sorted_by_name
    (rejects : UpdateOneModel → option error) (sch : Schedule)
    (w0 : World) (ops : list Operation) :
  Forall decodable (docs (coll w0)) →
  let w := history rejects w0 ops in
  let stored := company_of <$> docs (coll w) in
  cursor_All (docs (coll w)) = inr stored ∧
  ∃ companies,
    value_of (run rejects sch FetchAllCompanies w) = (companies, None) ∧
    companies ≡ₚ stored ∧
    Sorted name_le companies ∧
    (NoDup (Name <$> stored) →
     ∀ other, other ≡ₚ stored → Sorted name_le other → other = companies).
Proof.
  intros Hdec0 w stored.
  assert (Forall decodable (docs (coll w))) as Hdec.
  { eapply Forall_impl; [|intros d; apply decodable_typed].
    apply history_typed. eapply Forall_impl; [done|]. intros d. apply decodable_typed. }
  split; [by apply cursor_All_decodable|].
  destruct (run_FetchAllCompanies rejects sch w Hdec) as (sorted & Hperm & Hsorted & Hval).
  exists (company_of <$> sorted).
  assert (Sorted name_le (company_of <$> sorted)) as Hs.
  { apply Sorted_decoded; [by rewrite Hperm | done]. }
  assert (company_of <$> sorted ≡ₚ stored) as Hp by (unfold stored; by rewrite Hperm).
  split_and!; [done..|].
  intros Hnd other Hother Hso.
  apply (Sorted_unique_strong name_le); [|done|done|by rewrite Hother, Hp].
  intros x1 x2 Hx1 Hx2 H12 H21.
  apply (NoDup_fmap_eq Name stored); [done|by rewrite <- Hother|by rewrite <- Hp|].
  by apply (anti_symm String.le).
Qed.

Lemma FetchAllCompanies_sorted_by_name_witness :
  let w0 := world_of [company_doc C_u; company_doc A_x] ["name"] in
  let ops := [OpProcessBatch [B_z; A_y] reversed; OpUpdateTreatedField "C"] in
  value_of (run accept_all in_order FetchAllCompanies (history accept_all w0 ops))
  = ([mkCompany "A" "y" false; mkCompany "B" "z" true; mkCompany "C" "u" true], None) ∧
  ∃ companies,
    value_of (run accept_all in_order FetchAllCompanies (history accept_all w0 ops))
      = (companies, None) ∧
    Sorted name_le companies.
Proof.
  intros w0 ops. split; [by_compute|].
  assert (Forall decodable (docs (coll w0))) as Hdec.
  { repeat constructor; by eexists. }
  destruct (FetchAllCompanies_sorted_by_name accept_all in_order w0 ops Hdec)
    as (_ & companies & Hval & _ & Hsorted & _).
  exists companies. split; [exact Hval | exact Hsorted].
Defined.

(** ** Worked runs *)

(** The end-to-end scenario: a batch with one company reports one
    processed record; reading returns it; marking it treated succeeds and
    shows in the next read; marking it again is refused as a no-op. *)
Example end_to_end :
  let A := mkCompany "A" "X" false in
  let w0 := (run accept_all in_order (NewBatchProcessor "mongodb://localhost:27017" 100 4)
               empty_world).1.2 in
  let posted := run accept_all in_order (ProcessBatch [A]) w0 in
  let read1 := run accept_all in_order FetchAllCompanies posted.1.2 in
  let put1 := run accept_all in_order (UpdateTreatedField "A") read1.1.2 in
  let read2 := run accept_all in_order FetchAllCompanies put1.1.2 in
  let put2 := run accept_all in_order (UpdateTreatedField "A") read2.1.2 in
  value_of posted = (1, None) ∧
  value_of read1 = ([A], None) ∧
  value_of put1 = None ∧
  value_of read2 = ([mkCompany "A" "X" true], None) ∧
  value_of put2 = Some "company found but no update performed: A".
Proof. split_and!; by_compute. Qed.

(** Submitted in the same order, a batch that names a company twice ends
    in the same state both times, with different counts: one insertion
    and one modification first, two modifications then. *)
Example resubmission_counts :
  let first := run accept_all in_order (ProcessBatch [A_x; A_y]) empty_world in
  let second := run accept_all in_order (ProcessBatch [A_x; A_y]) first.1.2 in
  batch_outcomes accept_all in_order [A_x; A_y] (coll empty_world)
    = [Inserted; Matched true] ∧
  batch_outcomes accept_all in_order [A_x; A_y] (coll_of first)
    = [Matched true; Matched true] ∧
  value_of first = (2, None) ∧ value_of second = (2, None) ∧
  cursor_All (docs_of first) = inr [A_y] ∧
  cursor_All (docs_of second) = inr [A_y].
Proof. split_and!; by_compute. Qed.

(** An ordered bulk write, which [ProcessBatch] does not ask for, would
    stop at the refused operation: the operation after it is not run. *)
Example ordered_run_stops :
  let models := operation_of <$> [A_x; B_z; C_u] in
  cursor_All (docs (bulk_write rejects_B in_order models
                      {| Ordered := true |} (coll empty_world)).2)
    = inr [A_x] ∧
  cursor_All (docs (bulk_write rejects_B in_order models
                      {| Ordered := false |} (coll empty_world)).2)
    = inr [A_x; C_u].
Proof. split; by_compute. Qed.

(** * The rest of the package, and the server *)


(** ** What an upsert writes is what a read decodes *)

Lemma decode_carried (d : Document) (r : Company) :
  carries d r → decode_Company d = inr r.
Proof.
  intros Hcar. unfold decode_Company, decode_string, decode_bool.
  rewrite (lookup_weaken _ _ _ _ (company_doc_name r) Hcar).
  rewrite (lookup_weaken _ _ _ _ (company_doc_address r) Hcar).
  rewrite (lookup_weaken _ _ _ _ (company_doc_treated r) Hcar).
  by destruct r.
Qed.

(** X1. Whatever document an upsert of a company lands on, the document
    it leaves decodes back into exactly that company (fields the company
    does not have are ignored, fields of a wrong type are overwritten);
    and the documents of a list of companies decode into that list. *)
Theorem upserted_document_decodes (r : Company) (d : Document)
    (companies : list Company) :
  decode_Company (company_doc r ∪ d) = inr r ∧
  cursor_All (company_doc <$> companies) = inr companies.
Proof.
  split; [apply decode_carried, carries_union|].
  induction companies as [|c cs IH]; [done|]. csimpl.
  by rewrite (decode_carried _ c (carries_self c)), IH.
Qed.

Lemma company_of_carried d r : carries d r → company_of d = r.
Proof. intros H. unfold company_of. by rewrite (decode_carried d r H). Qed.

Section more.
Variable rejects : UpdateOneModel → option error.

Lemma perform_only_name_index w op :
  only_name_index (coll w) → only_name_index (coll (perform rejects w op)).
Proof.
  intros Hidx. unfold only_name_index.
  destruct op as [companies sch|n| |]; unfold perform.
  - destruct (decide (companies = [])) as [->|Hne]; [done|].
    destruct (run_ProcessBatch rejects sch companies w Hne) as [Hc _].
    unfold coll_of in Hc. rewrite Hc. unfold batch_collection.
    by rewrite execute_indexes.
  - destruct (run_UpdateTreatedField rejects in_order n w) as [Hc _].
    unfold coll_of in Hc. rewrite Hc. by rewrite update_one_indexes.
  - pose proof (run_FetchAllCompanies_coll rejects in_order w) as Hc.
    unfold coll_of in Hc. by rewrite Hc.
  - done.
Qed.

(** X2. A record written by [ProcessBatch] is read back by
    [FetchAllCompanies]: when the store accepts the record's operation
    and no other record of the batch has its name, the read that follows
    succeeds and the record is among the companies returned.  (The
    collection decodes and carries no unique index besides [name].) *)
Theorem written_record_is_read_back (sch sch' : Schedule) (w : World)
    (companies : list Company) (r : Company) :
  only_name_index (coll w) →
  Forall decodable (docs (coll w)) →
  r ∈ companies →
  rejects (operation_of r) = None →
  (∀ r', r' ∈ companies → Name r' = Name r → r' = r) →
  let written := (run rejects sch (ProcessBatch companies) w).1.2 in
  ∃ fetched, value_of (run rejects sch' FetchAllCompanies written) = (fetched, None) ∧
             r ∈ fetched.
Proof.
  intros Hidx Hdec Hr Hacc Honly written.
  assert (companies ≠ []) as Hne by (intros ->; by apply elem_of_nil in Hr).
  assert (Forall decodable (docs (coll written))) as Hdec'.
  { eapply Forall_impl; [|intros d; apply decodable_typed].
    apply (perform_typed rejects w (OpProcessBatch companies sch)).
    eapply Forall_impl; [done|]. intros d. apply decodable_typed. }
  destruct (run_FetchAllCompanies rejects sch' written Hdec')
    as (sorted & Hperm & _ & Hval).
  exists (company_of <$> sorted). split; [done|].
  assert (applied rejects companies (Name r) (coll written)) as Happ.
  { change (coll written) with (coll_of (run rejects sch (ProcessBatch companies) w)).
    destruct (run_ProcessBatch rejects sch companies w Hne) as [-> _].
    unfold batch_collection.
    destruct (order_operations sch companies) as (rs & -> & Hp).
    apply execute_applies; [done| | |done].
    - intros x Hx. by rewrite <- Hp.
    - by rewrite Hp. }
  destruct Happ as (d & r' & Hd & Hr' & Hn & _ & Hcar).
  rewrite (Honly r' Hr' Hn) in Hcar.
  apply list_elem_of_fmap. exists d. split; [by rewrite (company_of_carried d r)|].
  by rewrite Hperm.
Qed.

(** ** What a batch leaves alone *)

Lemma update_one_frame m c i (d : Document) :
  docs c !! i = Some d → ¬ matches (Filter m) d →
  docs (update_one rejects m c).2 !! i = Some d.
Proof.
  intros Hi Hd. unfold update_one.
  destruct (rejects m); [done|].
  destruct (Update m !! "$set") as [fields|]; [|done].
  destruct (list_find _ _) as [[j dj]|] eqn:Hfind.
  - case_decide; [done|]. destruct (duplicate_key _ _ _ _); [done|]. simpl.
    apply list_find_Some in Hfind as (Hj & Hm & _).
    rewrite list_lookup_insert_ne; [done|]. intros ->. congruence.
  - case_decide; [|done]. destruct (duplicate_key _ _ _ _); [done|]. simpl.
    by apply lookup_app_l_Some.
Qed.

Lemma execute_frame models c i (d : Document) :
  docs c !! i = Some d →
  Forall (λ m, ¬ matches (Filter m) d) models →
  docs (execute rejects false models c).2 !! i = Some d.
Proof.
  revert c. induction models as [|m rest IH]; intros c Hi Hm; [done|].
  apply Forall_cons in Hm as [Hm Hrest].
  rewrite execute_unordered_cons. simpl. apply IH; [|done].
  by apply update_one_frame.
Qed.

(** X3. [ProcessBatch] leaves the documents of other companies alone: a
    stored document whose name is the name of no record of the batch is
    unchanged after the call, at the same position. *)
Theorem ProcessBatch_leaves_other_names (sch : Schedule) (w : World)
    (companies : list Company) (i : nat) (d : Document) :
  docs (coll w) !! i = Some d →
  (∀ r, r ∈ companies → d !! "name" ≠ Some (VString (Name r))) →
  docs_of (run rejects sch (ProcessBatch companies) w) !! i = Some d.
Proof.
  intros Hi Hother.
  destruct (decide (companies = [])) as [->|Hne]; [done|].
  change (docs_of (run rejects sch (ProcessBatch companies) w))
    with (docs (coll_of (run rejects sch (ProcessBatch companies) w))).
  destruct (run_ProcessBatch rejects sch companies w Hne) as [-> _].
  unfold batch_collection. apply execute_frame; [done|].
  rewrite (order_perm sch). apply Forall_fmap, Forall_forall.
  intros r Hr. simpl. rewrite matches_name. by apply Hother.
Qed.

(** ** Nothing is ever deleted *)

Lemma update_one_treated_present n' n c :
  present n' c → present n' (update_one rejects (treated_update n) c).2.
Proof.
  intros (d0 & Hd0 & Hn). unfold update_one.
  destruct (rejects _); [by exists d0|].
  change (Update (treated_update n) !! "$set")
    with (Some ({[ "treated" := VBool true ]} : Document)).
  destruct (list_find _ _) as [[i d]|] eqn:Hfind; [|by exists d0].
  case_decide; [by exists d0|]. destruct (duplicate_key _ _ _ _); [by exists d0|].
  simpl. apply list_find_Some in Hfind as (Hi & _ & _).
  apply list_elem_of_lookup in Hd0 as [j Hj].
  destruct (decide (j = i)) as [->|Hji].
  - exists ({[ "treated" := VBool true ]} ∪ d). split.
    + apply list_elem_of_insert. eauto using lookup_lt_Some.
    + rewrite lookup_union_r by done. congruence.
  - exists d0. split; [|done]. apply list_elem_of_lookup. exists j.
    simpl. by rewrite list_lookup_insert_ne.
Qed.

Lemma perform_grows w op :
  (length (docs (coll w)) ≤ length (docs (coll (perform rejects w op))))%nat.
Proof.
  destruct op as [companies sch|n| |]; unfold perform.
  - destruct (decide (companies = [])) as [->|Hne]; [done|].
    destruct (run_ProcessBatch rejects sch companies w Hne) as [Hc _].
    unfold coll_of in Hc. rewrite Hc. unfold batch_collection.
    pose proof (execute_unordered_inserted rejects
      (order sch (operation_of <$> companies)) (coll w)).
    pose proof (count_nonneg is_inserted
      (execute rejects false (order sch (operation_of <$> companies)) (coll w)).1).
    lia.
  - destruct (run_UpdateTreatedField rejects in_order n w) as [Hc _].
    unfold coll_of in Hc. rewrite Hc.
    pose proof (update_one_length rejects (treated_update n) (coll w)).
    destruct (is_inserted _); lia.
  - pose proof (run_FetchAllCompanies_coll rejects in_order w) as Hc.
    unfold coll_of in Hc. by rewrite Hc.
  - done.
Qed.

Lemma perform_keeps_present n w op :
  only_name_index (coll w) → present n (coll w) →
  present n (coll (perform rejects w op)).
Proof.
  intros Hidx Hp. destruct op as [companies sch|n'| |]; unfold perform.
  - destruct (decide (companies = [])) as [->|Hne]; [done|].
    destruct (run_ProcessBatch rejects sch companies w Hne) as [Hc _].
    unfold coll_of in Hc. rewrite Hc. unfold batch_collection.
    destruct (order_operations sch companies) as (rs & -> & _).
    by apply execute_keeps_present.
  - destruct (run_UpdateTreatedField rejects in_order n' w) as [Hc _].
    unfold coll_of in Hc. rewrite Hc. by apply update_one_treated_present.
  - pose proof (run_FetchAllCompanies_coll rejects in_order w) as Hc.
    unfold coll_of in Hc. by rewrite Hc.
  - done.
Qed.

(** X4. No operation of the package deletes: across any sequence of
    batches, treated-updates, reads and health checks the collection
    never gets shorter, and a name that is stored stays stored. *)
Theorem history_never_deletes (w : World) (ops : list Operation) :
  only_name_index (coll w) →
  (length (docs (coll w)) ≤ length (docs (coll (history rejects w ops))))%nat ∧
  ∀ n, present n (coll w) → present n (coll (history rejects w ops)).
Proof.
  revert w. induction ops as [|op ops IH]; intros w Hidx; [done|].
  simpl. destruct (IH (perform rejects w op)) as [Hlen Hpres].
  { by apply perform_only_name_index. }
  split.
  - pose proof (perform_grows w op). lia.
  - intros n Hn. apply Hpres. by apply perform_keeps_present.
Qed.

(** ** Bounds on the count *)

(** X5. The count [ProcessBatch] returns lies between 0 and the number
    of records of the batch, and it is 0 whenever an error is returned. *)
Theorem ProcessBatch_count_bounds (sch : Schedule) (w : World)
    (companies : list Company) :
  Z.of_nat (length companies) < 2^63 →
  let r := run rejects sch (ProcessBatch companies) w in
  0 ≤ (value_of r).1 ≤ Z.of_nat (length companies) ∧
  (is_Some (value_of r).2 → (value_of r).1 = 0).
Proof.
  intros Hlen r.
  destruct (decide (companies = [])) as [->|Hne].
  { split; [done|]. by intros [e He]. }
  destruct (run_ProcessBatch rejects sch companies w Hne) as [_ Hv].
  fold r in Hv. rewrite Hv.
  set (os := batch_outcomes rejects sch companies (coll w)).
  assert (Z.of_nat (length os) = Z.of_nat (length companies)) as Hos.
  { unfold os, batch_outcomes. rewrite execute_unordered_length.
    by rewrite (Permutation_length (order_perm sch _)), length_fmap. }
  pose proof (count_modified_inserted os).
  pose proof (count_nonneg is_modified os).
  pose proof (count_nonneg is_inserted os).
  destruct (bulk_error os); simpl.
  - split; [lia|done].
  - split; [|by intros [e He]].
    unfold int_of_int64, add64. rewrite !wrap64_small; rewrite ?wrap64_small; lia.
Qed.

(** ** A batch of new names *)

Lemma not_present_find n c :
  ¬ present n c →
  list_find (matches {[ "name" := VString n ]}) (docs c) = None.
Proof.
  intros Hn. destruct (list_find _ _) as [[i d]|] eqn:Hfind; [|done].
  destruct Hn. apply present_find. by exists i, d.
Qed.

Lemma execute_fresh rs c :
  only_name_index c →
  (∀ r, r ∈ rs → rejects (operation_of r) = None) →
  NoDup (Name <$> rs) →
  (∀ r, r ∈ rs → ¬ present (Name r) c) →
  execute rejects false (operation_of <$> rs) c
  = (replicate (length rs) Inserted,
     {| docs := docs c ++ (company_doc <$> rs); indexes := indexes c |}).
Proof.
  revert c. induction rs as [|r rs IH]; intros c Hidx Hacc Hnd Hnew.
  { simpl. rewrite app_nil_r. by destruct c. }
  csimpl in Hnd. apply NoDup_cons in Hnd as [Hr Hnd].
  rewrite fmap_cons, execute_unordered_cons.
  rewrite update_one_upsert by done.
  rewrite (Hacc r) by left.
  rewrite (not_present_find (Name r) c) by (apply Hnew; left). simpl.
  rewrite IH; [|exact Hidx| | |]; simpl.
  - by rewrite <- app_assoc.
  - intros r' Hr'. apply Hacc. by right.
  - done.
  - intros r' Hr' (d & Hd & Hn). apply elem_of_app in Hd as [Hd|Hd].
    + apply (Hnew r'); [by right|]. by exists d.
    + apply list_elem_of_singleton in Hd as ->.
      rewrite company_doc_name in Hn. apply Hr.
      apply list_elem_of_fmap. exists r'. split; [congruence|done].
Qed.

Lemma count_replicate_inserted n :
  count is_inserted (replicate n Inserted) = Z.of_nat n ∧
  count is_modified (replicate n Inserted) = 0 ∧
  bulk_error (replicate n Inserted) = None.
Proof.
  induction n as [|n (IH1 & IH2 & IH3)]; [done|].
  simpl replicate. rewrite !count_cons. simpl. split_and!; [lia|lia|].
  unfold bulk_error in *. simpl. done.
Qed.

(** X6. A batch of distinct names none of which is stored, all accepted
    by the store, is inserted as a whole: the count returned is the number
    of records and the collection is the old one plus one document per
    record. *)
Theorem ProcessBatch_new_names (sch : Schedule) (w : World)
    (companies : list Company) :
  only_name_index (coll w) →
  (∀ r, r ∈ companies → rejects (operation_of r) = None) →
  NoDup (Name <$> companies) →
  (∀ r, r ∈ companies → ¬ present (Name r) (coll w)) →
  Z.of_nat (length companies) < 2^63 →
  let r := run rejects sch (ProcessBatch companies) w in
  value_of r = (Z.of_nat (length companies), None) ∧
  docs_of r ≡ₚ docs (coll w) ++ (company_doc <$> companies).
Proof.
  intros Hidx Hacc Hnd Hnew Hlen r.
  destruct (decide (companies = [])) as [->|Hne].
  { split; [done|]. simpl. by rewrite app_nil_r. }
  destruct (run_ProcessBatch rejects sch companies w Hne) as [Hc Hv].
  fold r in Hc, Hv. unfold batch_outcomes in Hv. unfold batch_collection in Hc.
  destruct (order_operations sch companies) as (rs & Hrs & Hperm).
  rewrite Hrs in Hc, Hv.
  rewrite execute_fresh in Hc, Hv; cycle 1.
  { done. } { intros x Hx. apply Hacc. by rewrite <- Hperm. }
  { by rewrite Hperm. } { intros x Hx. apply Hnew. by rewrite <- Hperm. }
  { done. } { intros x Hx. apply Hacc. by rewrite <- Hperm. }
  { by rewrite Hperm. } { intros x Hx. apply Hnew. by rewrite <- Hperm. }
  simpl in Hc, Hv.
  destruct (count_replicate_inserted (length rs)) as (Hi & Hm & He).
  rewrite He, Hi, Hm in Hv. split.
  - rewrite Hv. f_equal. rewrite (Permutation_length Hperm).
    unfold int_of_int64, add64. rewrite !wrap64_small; rewrite ?wrap64_small; lia.
  - change (docs_of r) with (docs (coll_of r)). rewrite Hc. simpl.
    by rewrite Hperm.
Qed.
End more.



(** ** Marking as treated, against any store *)

(** X7. Against every implementation of the store, [UpdateTreatedField]
    makes exactly one store call, the update of [{name}] with
    [$set {treated: true}]; a store error comes back wrapped as "failed to
    update treated field"; it returns [nil] exactly when the store reports
    no error, a match and a modification; and it writes its log line
    exactly when it returns [nil]. *)
Theorem UpdateTreatedField_one_update
    (S : Type) (handler : ∀ X, Call X → S → X * S) (s : S) (companyName : string) :
  let update := UpdateOne {[ "name" := VString companyName ]}
                          {[ "$set" := {[ "treated" := VBool true ]} ]} in
  let resp := (handler _ update s).1 in
  let out := interp handler (UpdateTreatedField companyName) s in
  filter (λ e, is_store_call e = true) out.2 = [Called update] ∧
  (∀ e, resp.2 = Some e →
     out.1.1 = Some (Errorf "failed to update treated field: " e)) ∧
  (out.1.1 = None ↔
     resp.2 = None ∧ UpdateResult.MatchedCount resp.1 ≠ 0 ∧
     UpdateResult.ModifiedCount resp.1 ≠ 0) ∧
  (filter (λ e, is_log e = true) out.2 ≠ [] ↔ out.1.1 = None).
Proof.
  intros update resp out. unfold out, resp, UpdateTreatedField. simpl.
  fold update. destruct (handler _ update s) as [[result [e|]] s']; simpl.
  { split_and!; [done|by intros ? [= <-]|split; [done|by intros (? & _)]|done]. }
  destruct (decide (UpdateResult.MatchedCount result = 0)) as [Hm|Hm]; simpl.
  { split_and!; [done|done|split; [done|by intros (_ & ? & _)]|done]. }
  destruct (decide (UpdateResult.ModifiedCount result = 0)) as [Hd|Hd]; simpl.
  { split_and!; [done|done|split; [done|by intros (_ & _ & ?)]|done]. }
  destruct (handler _ (Printf _ _) s') as [[] s'']. simpl.
  split_and!; [done|done|done|done].
Qed.

(** X9. Against every implementation of the store, when
    [UpdateTreatedField] returns an error it has issued its one update and
    nothing else, no second attempt, no write that undoes the first and no
    log line: the state it leaves is the state the store's [UpdateOne]
    left.  Whether the collection changed is thus decided by the store
    alone: it did not when the failing update wrote nothing, it did when
    the store applied the write and reported the error afterwards. *)
Theorem UpdateTreatedField_failure_stops_at_the_update
    (S : Type) (handler : ∀ X, Call X → S → X * S) (s : S) (companyName : string) :
  let update := UpdateOne {[ "name" := VString companyName ]}
                          {[ "$set" := {[ "treated" := VBool true ]} ]} in
  let replied := handler _ update s in
  let out := interp handler (UpdateTreatedField companyName) s in
  is_Some out.1.1 →
  out.2 = [Called update] ∧ out.1.2 = replied.2.
Proof.
  intros update replied out. unfold out, replied, UpdateTreatedField. simpl.
  fold update. destruct (handler _ update s) as [[result [e|]] s']; simpl.
  { done. }
  destruct (decide (UpdateResult.MatchedCount result = 0)); simpl; [done|].
  destruct (decide (UpdateResult.ModifiedCount result = 0)); simpl; [done|].
  destruct (handler _ (Printf _ _) s') as [[] s'']. simpl.
  by intros [? [=]].
Qed.

Section treated_more.
Variable rejects : UpdateOneModel → option error.

End treated_more.


(** ** Reading, against any store *)

(** X10. Against every implementation of the store,
    [FetchAllCompanies] closes the cursor exactly when [Find] gave one:
    its calls are [Find] followed by one [CursorClose] of that cursor,
    also when decoding fails, and [Find] alone when [Find] failed; a
    [Find] error comes back wrapped as "failed to fetch companies". *)
Theorem FetchAllCompanies_closes_cursor
    (S : Type) (handler : ∀ X, Call X → S → X * S) (s : S) :
  let find := Find ∅ (SetSort [("name", 1)] options_Find) in
  let resp := (handler _ find s).1 in
  let out := interp handler FetchAllCompanies s in
  out.2 = Called find ::
          match resp.2 with
          | Some _ => []
          | None => [Called (CursorClose resp.1)]
          end ∧
  (∀ e, resp.2 = Some e →
     out.1.1 = ([], Some (Errorf "failed to fetch companies: " e))) ∧
  (resp.2 = None →
     out.1.1 = match cursor_All resp.1 with
               | inl e => ([], Some (Errorf "failed to decode companies: " e))
               | inr companies => (companies, None)
               end).
Proof.
  intros find resp out. unfold out, resp, FetchAllCompanies.
  cbn -[cursor_All]. fold find.
  destruct (handler _ find s) as [[cursor [e|]] s']; cbn -[cursor_All].
  { split_and!; [done|by intros ? [= <-]|done]. }
  destruct (cursor_All cursor) as [e|companies]; cbn;
    destruct (handler _ (CursorClose cursor) s') as [[] s'']; by split_and!.
Qed.

(** ** Reading the reference store *)


Lemma cursor_All_decoded (l : list Document) (cs : list Company) :
  cursor_All l = inr cs → Forall decodable l.
Proof.
  revert cs. induction l as [|d l IH]; intros cs; [done|]. simpl.
  destruct (decode_Company d) as [e|c] eqn:Hd; [done|].
  destruct (cursor_All l) as [e|cs'] eqn:Hl; [done|]. intros _.
  constructor; [by exists c | by eapply IH].
Qed.


Lemma FetchAllCompanies_ok_iff
    (rejects : UpdateOneModel → option error) (sch : Schedule) (w : World) :
  (value_of (run rejects sch FetchAllCompanies w)).2 = None ↔
  Forall decodable (docs (coll w)).
Proof.
  split.
  - destruct (collection_Find_all (coll w)) as (sorted & Hfind & Hperm & _).
    unfold run, value_of, FetchAllCompanies.
    cbn -[cursor_All collection_Find]. rewrite Hfind. cbn -[cursor_All].
    destruct (cursor_All sorted) as [e|cs] eqn:Hall; cbn; [done|].
    intros _. rewrite <- Hperm. by eapply cursor_All_decoded.
  - intros Hdec.
    destruct (run_FetchAllCompanies rejects sch w Hdec) as (sorted & _ & _ & Hv).
    by rewrite Hv.
Qed.



(** ** Connecting *)

(** X12. Against every implementation of the store,
    [NewBatchProcessor] stops at the first failure: it pings only after
    the connection was made and creates the unique index on [name] only
    after the ping succeeded, and the error returned wraps the first
    failure.  The pool it asks for is twice the number of workers. *)
Theorem NewBatchProcessor_fails_fast
    (S : Type) (handler : ∀ X, Call X → S → X * S) (s : S)
    (uri : string) (batchSize numWorkers : Z) :
  let opts := {| URI := uri; ConnectTimeout := 5; ServerSelectionTimeout := 5;
                 MaxPoolSize := (numWorkers * 2) mod 2^64 |} in
  let index := {| Keys := [("name", 1)]; Unique := true; Background := true |} in
  let connected := handler _ (Connect opts) s in
  let pinged := handler _ Ping connected.2 in
  let indexed := handler _ (CreateOne index) pinged.2 in
  let out := interp handler (NewBatchProcessor uri batchSize numWorkers) s in
  out.2 = Called (Connect opts) ::
          match connected.1 with
          | Some _ => []
          | None =>
              Called Ping ::
              match pinged.1 with
              | Some _ => []
              | None => [Called (CreateOne index)]
              end
          end ∧
  out.1.1 = match connected.1, pinged.1, indexed.1 with
            | Some e, _, _ => Some (Errorf "failed to connect to MongoDB: " e)
            | None, Some e, _ => Some (Errorf "failed to ping MongoDB: " e)
            | None, None, Some e => Some (Errorf "failed to create index: " e)
            | None, None, None => None
            end ∧
  (0 ≤ numWorkers < 2^63 → MaxPoolSize opts = 2 * numWorkers).
Proof.
  intros opts index connected pinged indexed out.
  subst connected pinged indexed out.
  unfold NewBatchProcessor. cbn -[Z.mul Z.pow Z.modulo]. fold opts index.
  destruct (handler _ (Connect opts) s) as [[e|] s1]; cbn -[Z.mul Z.pow Z.modulo].
  { split_and!; [done|done|]. intros Hn. rewrite Z.mod_small; lia. }
  destruct (handler _ Ping s1) as [[e|] s2]; cbn -[Z.mul Z.pow Z.modulo].
  { split_and!; [done|done|]. intros Hn. rewrite Z.mod_small; lia. }
  destruct (handler _ (CreateOne index) s2) as [[e|] s3]; cbn -[Z.mul Z.pow Z.modulo];
    (split_and!; [done|done|]; intros Hn; rewrite Z.mod_small; lia).
Qed.

Section connect_store.
Variable rejects : UpdateOneModel → option error.

(** X13. [NewBatchProcessor] succeeds on a collection exactly when no
    two of its documents share a name; it never changes the documents, on
    success the unique index on [name] is in place, and on failure it
    returns "failed to create index" and leaves the store as it was. *)
Theorem NewBatchProcessor_needs_distinct_names (sch : Schedule)
    (uri : string) (batchSize numWorkers : Z) (w : World) :
  let r := run rejects sch (NewBatchProcessor uri batchSize numWorkers) w in
  docs (coll_of r) = docs (coll w) ∧
  (value_of r = None ↔ NoDup (index_key "name" <$> docs (coll w))) ∧
  (value_of r = None → "name" ∈ indexes (coll_of r)) ∧
  (is_Some (value_of r) →
     value_of r = Some (Errorf "failed to create index: " (E11000 "name")) ∧
     r.1.2 = w).
Proof.
  intros r. unfold r, run, value_of, coll_of, NewBatchProcessor. simpl.
  unfold collection_CreateOne. simpl.
  case_decide as Hnd; simpl.
  - split_and!; [done|done| |by intros [e He]].
    intros _. case_decide; [done|]. apply elem_of_app. right.
    by apply list_elem_of_singleton.
  - split_and!; [done|done|done|]. intros _. split; [done|]. by destruct w.
Qed.

(** X14. [NewBatchProcessor] can be run again: on a store where it has
    succeeded, a second run (with any parameters) succeeds and changes
    nothing. *)
Theorem NewBatchProcessor_again (sch sch' : Schedule)
    (uri uri' : string) (batchSize batchSize' numWorkers numWorkers' : Z)
    (w : World) :
  let first := run rejects sch (NewBatchProcessor uri batchSize numWorkers) w in
  value_of first = None →
  let second := run rejects sch'
                  (NewBatchProcessor uri' batchSize' numWorkers') first.1.2 in
  value_of second = None ∧ second.1.2 = first.1.2.
Proof.
  intros first Hok second. revert Hok.
  unfold second, first, run, value_of, NewBatchProcessor. simpl.
  unfold collection_CreateOne. simpl.
  case_decide as Hnd; simpl; [|done]. intros _.
  rewrite decide_True by done. simpl.
  rewrite decide_True; [done|].
  case_decide; [done|]. apply elem_of_app. right. by apply list_elem_of_singleton.
Qed.
End connect_store.

(** ** Programs in sequence *)

Lemma interp_bind {S A B : Type} (handler : ∀ X, Call X → S → X * S)
    (p : Prog A) (f : A → Prog B) (s : S) :
  interp handler (bind p f) s
  = let '(a, s', tr) := interp handler p s in
    let '(b, s'', tr') := interp handler (f a) s' in
    (b, s'', tr ++ tr').
Proof.
  revert s. induction p as [a|X c k IH]; intros s; simpl.
  - by destruct (interp handler (f a) s) as [[b s''] tr'].
  - destruct (handler X c s) as [x s']. rewrite IH.
    destruct (interp handler (k x) s') as [[a s''] tr].
    by destruct (interp handler (f a) s'') as [[b s3] tr'].
Qed.

Lemma interp_mbind {S A B : Type} (handler : ∀ X, Call X → S → X * S)
    (p : Prog A) (f : A → Prog B) (s : S) :
  interp handler (p ≫= f) s
  = let '(a, s', tr) := interp handler p s in
    let '(b, s'', tr') := interp handler (f a) s' in
    (b, s'', tr ++ tr').
Proof. apply interp_bind. Qed.


Lemma store_calls_app tr1 tr2 :
  store_calls (tr1 ++ tr2) = store_calls tr1 ++ store_calls tr2.
Proof. apply filter_app. Qed.

Section server_facts.
Variable encode : APIResponse → option error.
Context {S : Type} (handler : ∀ X, Call X → S → X * S).


Lemma interp_sendResponse w code response (s : S) :
  ∃ s' tr,
    interp handler (sendResponse encode w code response) s = (sent encode w code response, s', tr) ∧
    store_calls tr = [].
Proof.
  unfold sendResponse, sent. destruct (encode response) as [e|]; simpl.
  - destruct (handler _ _ s) as [[] s']. by eexists _, _.
  - by eexists _, _.
Qed.

(** A handler's last step: send and return the flag. *)
Lemma interp_send_and_return w code response (flag : bool) (s : S) :
  ∃ s' tr,
    interp handler (w' ← sendResponse encode w code response; mret (w', flag)) s
    = ((sent encode w code response, flag), s', tr) ∧
    store_calls tr = [].
Proof.
  rewrite interp_mbind.
  destruct (interp_sendResponse w code response s) as (s' & tr & -> & Htr).
  simpl. exists s', (tr ++ []). split; [done|]. by rewrite app_nil_r.
Qed.
End server_facts.

Section handlers.
Variable encode : APIResponse → option error.
Context {S : Type} (handler : ∀ X, Call X → S → X * S).

Lemma sent_answered_once code response :
  code ∈ [StatusOK; StatusBadRequest; StatusInternalServerError;
          StatusServiceUnavailable] →
  (Success response = true ↔ code = StatusOK) →
  answered_once encode
    (sent encode (wrapResponseWriter new_ResponseWriter) code response).
Proof.
  intros Hcode Hsucc. unfold answered_once, sent.
  destruct (encode response) as [e|] eqn:Henc; simpl;
    (split_and!; [done|done|done|]); exists response; by rewrite Henc.
Qed.

Lemma interp_fetchAllCompaniesHandler w r healthy (s : S) :
  let fetched := interp handler FetchAllCompanies s in
  let out := interp handler (fetchAllCompaniesHandler encode w r healthy) s in
  out.1.1.2 = healthy ∧
  store_calls out.2 = store_calls fetched.2 ∧
  out.1.1.1 =
    match fetched.1.1 with
    | (_, Some err) =>
        sent encode w StatusInternalServerError
          {| Success := false; Message := "Failed to fetch companies: " +:+ Error err;
             Data := None |}
    | (companies, None) =>
        sent encode w StatusOK
          {| Success := true; Message := "Companies fetched successfully";
             Data := Some (DataCompanies companies) |}
    end.
Proof.
  intros fetched out. subst fetched out. unfold fetchAllCompaniesHandler.
  rewrite interp_mbind.
  destruct (interp handler FetchAllCompanies s) as [[[companies [e|]] s1] tr1];
    cbv beta iota zeta.
  - destruct (interp_send_and_return encode handler w StatusInternalServerError
      {| Success := false; Message := "Failed to fetch companies: " +:+ Error e;
         Data := None |} healthy s1) as (s' & tr & -> & Htr).
    simpl. by rewrite store_calls_app, Htr, app_nil_r.
  - destruct (interp_send_and_return encode handler w StatusOK
      {| Success := true; Message := "Companies fetched successfully";
         Data := Some (DataCompanies companies) |} healthy s1) as (s' & tr & -> & Htr).
    simpl. by rewrite store_calls_app, Htr, app_nil_r.
Qed.

Lemma interp_HealthCheck (s : S) :
  interp handler HealthCheck s
  = ((handler _ Ping s).1, (handler _ Ping s).2, [Called Ping]).
Proof.
  unfold HealthCheck, call. simpl. by destruct (handler _ Ping s).
Qed.

Lemma interp_healthCheckHandler w r healthy (s : S) :
  let ping := (handler _ Ping s).1 in
  let out := interp handler (healthCheckHandler encode w r healthy) s in
  out.1.1.2 = bool_decide (ping = None) ∧
  store_calls out.2 = [Called Ping] ∧
  out.1.1.1 =
    match ping with
    | Some err =>
        sent encode w StatusServiceUnavailable
          {| Success := false; Message := "Service unhealthy: " +:+ Error err;
             Data := None |}
    | None =>
        sent encode w StatusOK
          {| Success := true; Message := "Service healthy"; Data := None |}
    end.
Proof.
  intros ping out. subst ping out. unfold healthCheckHandler.
  rewrite interp_mbind, interp_HealthCheck.
  destruct (handler _ Ping s) as [[e|] s1]; cbn [fst snd]; cbv beta iota zeta.
  - destruct (interp_send_and_return encode handler w StatusServiceUnavailable
      {| Success := false; Message := "Service unhealthy: " +:+ Error e;
         Data := None |} false s1) as (s' & tr & -> & Htr).
    simpl. split_and!; [done| |done].
    change (store_calls ([Called Ping] ++ tr) = [Called Ping]).
    by rewrite store_calls_app, Htr.
  - destruct (interp_send_and_return encode handler w StatusOK
      {| Success := true; Message := "Service healthy"; Data := None |} true s1)
      as (s' & tr & -> & Htr).
    simpl. split_and!; [done| |done].
    change (store_calls ([Called Ping] ++ tr) = [Called Ping]).
    by rewrite store_calls_app, Htr.
Qed.

Lemma interp_batchUploadHandler w r healthy (s : S) :
  let out := interp handler (batchUploadHandler encode w r healthy) s in
  out.1.1.2 = healthy ∧
  if negb healthy then
    store_calls out.2 = [] ∧
    out.1.1.1 = sent encode w StatusServiceUnavailable
                  {| Success := false; Message := "Service is not healthy";
                     Data := None |}
  else
    match Decoded r with
    | inl err =>
        store_calls out.2 = [] ∧
        out.1.1.1 = sent encode w StatusBadRequest
                      {| Success := false;
                         Message := "Invalid request body: " +:+ Error err;
                         Data := None |}
    | inr req =>
        if decide (Companies req = []) then
          store_calls out.2 = [] ∧
          out.1.1.1 = sent encode w StatusBadRequest
                        {| Success := false; Message := "No companies provided";
                           Data := None |}
        else
          let processed := interp handler (ProcessBatch (Companies req)) s in
          store_calls out.2 = store_calls processed.2 ∧
          out.1.1.1 =
            match processed.1.1 with
            | (_, Some err) =>
                sent encode w StatusInternalServerError
                  {| Success := false;
                     Message := "Failed to process batch: " +:+ Error err;
                     Data := None |}
            | (processedCount, None) =>
                sent encode w StatusOK
                  {| Success := true; Message := "Batch processed successfully";
                     Data := Some (DataProcessedCount processedCount) |}
            end
    end.
Proof.
  intros out. subst out. unfold batchUploadHandler.
  destruct healthy; simpl negb; cbv iota.
  2:{ destruct (interp_send_and_return encode handler w StatusServiceUnavailable
        {| Success := false; Message := "Service is not healthy"; Data := None |}
        false s) as (s' & tr & -> & Htr). done. }
  destruct (Decoded r) as [err|req].
  { destruct (interp_send_and_return encode handler w StatusBadRequest
      {| Success := false; Message := "Invalid request body: " +:+ Error err;
         Data := None |} true s) as (s' & tr & -> & Htr). done. }
  destruct (decide (length (Companies req) = 0%nat)) as [Hlen|Hlen].
  { rewrite decide_True by (by apply nil_length_inv).
    destruct (interp_send_and_return encode handler w StatusBadRequest
      {| Success := false; Message := "No companies provided"; Data := None |}
      true s) as (s' & tr & -> & Htr). done. }
  rewrite decide_False by (intros Hnil; by rewrite Hnil in Hlen).
  rewrite interp_mbind. cbv zeta.
  destruct (interp handler (ProcessBatch (Companies req)) s)
    as [[[n [e|]] s1] tr1]; cbv beta iota zeta.
  - destruct (interp_send_and_return encode handler w StatusInternalServerError
      {| Success := false; Message := "Failed to process batch: " +:+ Error e;
         Data := None |} true s1) as (s' & tr & -> & Htr).
    simpl. by rewrite store_calls_app, Htr, app_nil_r.
  - destruct (interp_send_and_return encode handler w StatusOK
      {| Success := true; Message := "Batch processed successfully";
         Data := Some (DataProcessedCount n) |} true s1) as (s' & tr & -> & Htr).
    simpl. by rewrite store_calls_app, Htr, app_nil_r.
Qed.

Lemma interp_updateTreatedHandler w r healthy (s : S) :
  let out := interp handler (updateTreatedHandler encode w r healthy) s in
  out.1.1.2 = healthy ∧
  if decide (QueryName r = "") then
    store_calls out.2 = [] ∧
    out.1.1.1 = sent encode w StatusBadRequest
                  {| Success := false; Message := "Company name is required";
                     Data := None |}
  else
    let updated := interp handler (UpdateTreatedField (QueryName r)) s in
    store_calls out.2 = store_calls updated.2 ∧
    out.1.1.1 =
      match updated.1.1 with
      | Some err =>
          sent encode w StatusInternalServerError
            {| Success := false;
               Message := "Failed to update treated field: " +:+ Error err;
               Data := None |}
      | None =>
          sent encode w StatusOK
            {| Success := true;
               Message := "Company treated field updated successfully";
               Data := None |}
      end.
Proof.
  intros out. subst out. unfold updateTreatedHandler. cbv zeta.
  destruct (decide (QueryName r = "")) as [Hn|Hn].
  { destruct (interp_send_and_return encode handler w StatusBadRequest
      {| Success := false; Message := "Company name is required"; Data := None |}
      healthy s) as (s' & tr & -> & Htr). done. }
  rewrite interp_mbind.
  destruct (interp handler (UpdateTreatedField (QueryName r)) s)
    as [[[e|] s1] tr1]; cbv beta iota zeta.
  - destruct (interp_send_and_return encode handler w StatusInternalServerError
      {| Success := false; Message := "Failed to update treated field: " +:+ Error e;
         Data := None |} healthy s1) as (s' & tr & -> & Htr).
    simpl. by rewrite store_calls_app, Htr, app_nil_r.
  - destruct (interp_send_and_return encode handler w StatusOK
      {| Success := true; Message := "Company treated field updated successfully";
         Data := None |} healthy s1) as (s' & tr & -> & Htr).
    simpl. by rewrite store_calls_app, Htr, app_nil_r.
Qed.
End handlers.

Section serving.
Variable encode : APIResponse → option error.
Context {S : Type} (handler : ∀ X, Call X → S → X * S).

Lemma status_sent w code response : status (sent encode w code response) = code.
Proof. unfold sent. by destruct (encode response). Qed.

Lemma Body_sent code response :
  Body (inner (sent encode (wrapResponseWriter new_ResponseWriter) code response))
  = match encode response with None => [response] | Some _ => [] end.
Proof. unfold sent. by destruct (encode response). Qed.

Lemma interp_loggingMiddleware next elapsed w r healthy (s : S) :
  let started := Printf "Started %s %s" [AStr (Method r); AStr (URLPath r)] in
  let handled := interp handler (next (wrapResponseWriter w) r healthy)
                   (handler _ started s).2 in
  let completed := Printf "Completed %s %s [%d] in %v"
                     [AStr (Method r); AStr (URLPath r);
                      AInt (status handled.1.1.1); AInt elapsed] in
  interp handler (loggingMiddleware next elapsed w r healthy) s
  = (handled.1.1, (handler _ completed handled.1.2).2,
     Called started :: handled.2 ++ [Called completed]).
Proof.
  intros started handled completed. subst handled completed.
  unfold loggingMiddleware. rewrite interp_mbind. fold started.
  change (interp handler (call started) s)
    with (let '(x, s') := handler _ started s in (x, s', [Called started])).
  destruct (handler _ started s) as [[] s1]. cbv beta iota zeta. cbn [snd].
  rewrite interp_mbind.
  destruct (interp handler (next (wrapResponseWriter w) r healthy) s1)
    as [[[wrapped flag] s2] tr]. cbv beta iota zeta. cbn [fst snd].
  rewrite interp_mbind.
  match goal with |- context [call ?c] =>
    change (interp handler (call c) s2)
      with (let '(x, s') := handler _ c s2 in (x, s', [Called c]));
    destruct (handler _ c s2) as [[] s3]
  end.
  unfold mret, Prog_ret. simpl. reflexivity.
Qed.

Ltac answered :=
  apply sent_answered_once;
  [ rewrite !elem_of_cons; auto 6
  | split; intros Heq; first [ reflexivity | discriminate Heq
                             | vm_compute in Heq; discriminate Heq ] ].

Lemma routed_handler_answers r hd healthy (s : S) :
  route encode r = Some hd →
  answered_once encode
    (interp handler (hd (wrapResponseWriter new_ResponseWriter) r healthy) s).1.1.1.
Proof.
  unfold route. intros Hroute.
  repeat case_decide; simplify_eq.
  - destruct (interp_healthCheckHandler encode handler
      (wrapResponseWriter new_ResponseWriter) r healthy s) as (_ & _ & ->).
    destruct (handler _ Ping s).1; answered.
  - pose proof (interp_batchUploadHandler encode handler
      (wrapResponseWriter new_ResponseWriter) r healthy s) as [_ Hb].
    destruct (negb healthy); [destruct Hb as [_ ->]; answered|].
    destruct (Decoded r) as [e|req];
      [destruct Hb as [_ ->]; answered|].
    case_decide; [destruct Hb as [_ ->]; answered|].
    destruct Hb as [_ ->].
    destruct (interp handler (ProcessBatch (Companies req)) s).1.1 as [n [e|]];
      answered.
  - destruct (interp_fetchAllCompaniesHandler encode handler
      (wrapResponseWriter new_ResponseWriter) r healthy s) as (_ & _ & ->).
    destruct (interp handler FetchAllCompanies s).1.1 as [cs [e|]];
      answered.
  - pose proof (interp_updateTreatedHandler encode handler
      (wrapResponseWriter new_ResponseWriter) r healthy s) as [_ Hb].
    case_decide; [destruct Hb as [_ ->]; answered|].
    destruct Hb as [_ ->].
    destruct (interp handler (UpdateTreatedField (QueryName r)) s).1.1 as [e|];
      answered.
Qed.

(** X15. Every request that matches a route is answered exactly once,
    against every implementation of the store: one status line, equal to
    the status the wrapper captured and one of 200, 400, 500 and 503; the
    content type [application/json]; and one envelope, whose [success]
    is true exactly when the status is 200. *)
Theorem routed_request_answered_once elapsed r healthy p (s : S) :
  serve encode elapsed new_ResponseWriter r healthy = Some p →
  answered_once encode (interp handler p s).1.1.1.
Proof.
  unfold serve. intros Hserve.
  destruct (route encode r) as [hd|] eqn:Hroute; [|done].
  simpl in Hserve. injection Hserve as <-.
  rewrite interp_loggingMiddleware. cbn [fst snd].
  by apply routed_handler_answers.
Qed.

(** X16. The access log agrees with the response: for every request
    that matches a route, the first call is the "Started" line, the last
    is the "Completed" line, and the status it logs is the status line
    the client was sent. *)
Theorem access_log_matches_response elapsed r healthy p (s : S) :
  serve encode elapsed new_ResponseWriter r healthy = Some p →
  let out := interp handler p s in
  ∃ code handled,
    WroteHeader (inner out.1.1.1) = Some code ∧
    out.2 = Called (Printf "Started %s %s" [AStr (Method r); AStr (URLPath r)])
            :: handled ++
            [Called (Printf "Completed %s %s [%d] in %v"
                       [AStr (Method r); AStr (URLPath r); AInt code;
                        AInt elapsed])].
Proof.
  unfold serve. intros Hserve. cbv zeta.
  destruct (route encode r) as [hd|] eqn:Hroute; [|done].
  simpl in Hserve. injection Hserve as <-.
  rewrite interp_loggingMiddleware. cbn [fst snd].
  eexists _, _. split; [|reflexivity].
  by destruct (routed_handler_answers r hd healthy
                 (handler _ (Printf "Started %s %s"
                    [AStr (Method r); AStr (URLPath r)]) s).2 Hroute) as (? & _).
Qed.

(** X17. [batchUploadHandler] turns a request away before the store is
    reached: when the server is flagged unhealthy (503, whatever the
    body), when the body does not decode (400) and when it holds no
    company (400).  No store call is made and the flag is unchanged. *)
Theorem batchUploadHandler_refuses_before_the_store w r healthy (s : S) :
  healthy = false ∨ (∃ e, Decoded r = inl e) ∨
    (∃ req, Decoded r = inr req ∧ Companies req = []) →
  let out := interp handler (batchUploadHandler encode w r healthy) s in
  store_calls out.2 = [] ∧
  out.1.1.2 = healthy ∧
  status out.1.1.1
  = (if healthy then StatusBadRequest else StatusServiceUnavailable).
Proof.
  intros Hcase out. subst out.
  pose proof (interp_batchUploadHandler encode handler w r healthy s) as [Hflag H].
  destruct healthy; simpl in H.
  - destruct Hcase as [?|[[e He]|(req & Hreq & Hnil)]]; [done| |].
    + rewrite He in H. destruct H as [-> ->]. by rewrite status_sent.
    + rewrite Hreq, decide_True in H by done. destruct H as [-> ->].
      by rewrite status_sent.
  - destruct H as [-> ->]. by rewrite status_sent.
Qed.

(** X18. [batchUploadHandler] on a healthy server and a non-empty
    batch makes the store calls of [ProcessBatch] and no other, leaves the
    flag set, and answers 200 exactly when [ProcessBatch] returned no
    error, 500 otherwise; the 200 envelope carries the count
    [ProcessBatch] returned as [processed_count]. *)
Theorem batchUploadHandler_reports_ProcessBatch r req (s : S) :
  Decoded r = inr req → Companies req ≠ [] →
  let processed := interp handler (ProcessBatch (Companies req)) s in
  let out := interp handler
               (batchUploadHandler encode (wrapResponseWriter new_ResponseWriter)
                  r true) s in
  store_calls out.2 = store_calls processed.2 ∧
  out.1.1.2 = true ∧
  (status out.1.1.1 = StatusOK ∨ status out.1.1.1 = StatusInternalServerError) ∧
  (status out.1.1.1 = StatusOK ↔ processed.1.1.2 = None) ∧
  (processed.1.1.2 = None →
   let response := {| Success := true; Message := "Batch processed successfully";
                      Data := Some (DataProcessedCount processed.1.1.1) |} in
   Body (inner out.1.1.1)
   = match encode response with None => [response] | Some _ => [] end).
Proof.
  intros Hreq Hne processed out. subst processed out.
  pose proof (interp_batchUploadHandler encode handler
    (wrapResponseWriter new_ResponseWriter) r true s) as [Hflag H].
  simpl in H. rewrite Hreq, decide_False in H by done. destruct H as [-> ->].
  destruct (interp handler (ProcessBatch (Companies req)) s).1.1 as [n [e|]];
    rewrite status_sent; simpl; split_and!; try done; try (by right); try (by left).
  intros _. apply Body_sent.
Qed.

(** X19. [healthCheckHandler] makes one store call, the ping, and sets
    the flag to its outcome whatever the flag was: set and 200 when the
    ping succeeded, cleared and 503 when it failed. *)
Theorem healthCheckHandler_sets_flag w r healthy (s : S) :
  let ping := (handler _ Ping s).1 in
  let out := interp handler (healthCheckHandler encode w r healthy) s in
  store_calls out.2 = [Called Ping] ∧
  (out.1.1.2 = true ↔ ping = None) ∧
  status out.1.1.1
  = (if out.1.1.2 then StatusOK else StatusServiceUnavailable).
Proof.
  intros ping out. subst ping out.
  destruct (interp_healthCheckHandler encode handler w r healthy s)
    as (-> & -> & ->).
  destruct (handler _ Ping s).1 as [e|]; rewrite status_sent; by split_and!.
Qed.

(** X20. A failed health check blocks batch uploads: the batch upload
    that follows is answered 503 without any store call, whatever its
    body and whatever the store would answer by then, and the flag stays
    cleared. *)
Theorem failed_probe_blocks_batches w w' r r' healthy (s : S) :
  is_Some (handler _ Ping s).1 →
  let probe := interp handler (healthCheckHandler encode w r healthy) s in
  let out := interp handler (batchUploadHandler encode w' r' probe.1.1.2)
               probe.1.2 in
  status out.1.1.1 = StatusServiceUnavailable ∧
  store_calls out.2 = [] ∧
  out.1.1.2 = false.
Proof.
  intros [e He] probe out. subst out.
  assert (probe.1.1.2 = false) as ->.
  { subst probe.
    destruct (interp_healthCheckHandler encode handler w r healthy s) as (-> & _).
    by rewrite He. }
  pose proof (interp_batchUploadHandler encode handler w' r' false probe.1.2)
    as [-> [-> ->]].
  by rewrite status_sent.
Qed.

(** X21. [updateTreatedHandler] never changes the flag; without a
    [name] parameter it answers 400 and makes no store call; with one it
    makes the store calls of [UpdateTreatedField] and answers 200 when
    that returned [nil] and 500 for every error. *)
Theorem updateTreatedHandler_reports_UpdateTreatedField w r healthy (s : S) :
  let out := interp handler (updateTreatedHandler encode w r healthy) s in
  let updated := interp handler (UpdateTreatedField (QueryName r)) s in
  out.1.1.2 = healthy ∧
  (QueryName r = "" →
     store_calls out.2 = [] ∧ status out.1.1.1 = StatusBadRequest) ∧
  (QueryName r ≠ "" →
     store_calls out.2 = store_calls updated.2 ∧
     status out.1.1.1
     = (if updated.1.1 is None then StatusOK else StatusInternalServerError)).
Proof.
  intros out updated. subst out updated.
  pose proof (interp_updateTreatedHandler encode handler w r healthy s) as [-> H].
  split; [done|]. case_decide as Hn.
  - destruct H as [-> ->]. rewrite status_sent. by split.
  - destruct H as [-> ->]. split; [done|]. intros _. split; [done|].
    destruct (interp handler (UpdateTreatedField (QueryName r)) s).1.1;
      by rewrite status_sent.
Qed.
End serving.

(** ** The handlers over the reference store *)

Section serving_store.
Variable encode : APIResponse → option error.
Variable rejects : UpdateOneModel → option error.

(** X22. Over the reference store, [updateTreatedHandler] with a name
    answers 200 exactly when a company of that name is stored and the
    document the update matches, the first of that name, is not yet
    treated; an unknown name and a company already treated both get
    500. *)
Theorem updateTreatedHandler_ok_iff_untreated (sch : Schedule) (w : World)
    (rw : responseWriter) (r : Request) (healthy : bool) :
  only_name_index (coll w) →
  rejects (treated_update (QueryName r)) = None →
  QueryName r ≠ "" →
  let out := run rejects sch (updateTreatedHandler encode rw r healthy) w in
  (status out.1.1.1 = StatusOK ∨ status out.1.1.1 = StatusInternalServerError) ∧
  (status out.1.1.1 = StatusOK ↔
   ∃ d rest, records_named (QueryName r) (coll w) = d :: rest ∧
             d !! "treated" ≠ Some (VBool true)).
Proof.
  intros Hidx Hacc Hname out. subst out. unfold run.
  pose proof (interp_updateTreatedHandler encode (handle rejects sch)
                rw r healthy w) as [_ Hb].
  rewrite decide_False in Hb by done. destruct Hb as [_ ->].
  destruct (run_UpdateTreatedField rejects sch (QueryName r) w) as [_ Hv].
  unfold run, value_of in Hv. rewrite Hv. clear Hv.
  rewrite update_one_treated by done.
  pose proof (records_named_find (QueryName r) (coll w)) as Hnamed.
  destruct (list_find _ _) as [[i d]|].
  - destruct Hnamed as [rest Hnamed].
    destruct (decide (d !! "treated" = Some (VBool true))) as [Ht|Ht]; simpl;
      rewrite status_sent.
    + split; [by right|]. split; [done|].
      intros (d' & rest' & Heq & Hnot). rewrite Heq in Hnamed. by simplify_eq.
    + split; [by left|]. split; [|done]. intros _. by exists d, rest.
  - simpl. rewrite status_sent. split; [by right|]. split; [done|].
    intros (d' & rest' & Heq & _). by rewrite Heq in Hnamed.
Qed.

(** X23. Over the reference store, [fetchAllCompaniesHandler] leaves
    the collection as it was and answers 200 exactly when every stored
    document decodes; the envelope then carries all stored companies, in
    ascending order of name. *)
Theorem fetchAllCompaniesHandler_returns_sorted (sch : Schedule) (w : World)
    (r : Request) (healthy : bool) :
  let out := run rejects sch
               (fetchAllCompaniesHandler encode
                  (wrapResponseWriter new_ResponseWriter) r healthy) w in
  coll out.1.2 = coll w ∧
  (status out.1.1.1 = StatusOK ↔ Forall decodable (docs (coll w))) ∧
  (Forall decodable (docs (coll w)) →
   ∃ companies,
     companies ≡ₚ company_of <$> docs (coll w) ∧
     Sorted name_le companies ∧
     let response := {| Success := true;
                        Message := "Companies fetched successfully";
                        Data := Some (DataCompanies companies) |} in
     Body (inner out.1.1.1)
     = match encode response with None => [response] | Some _ => [] end).
Proof.
  intros out. subst out. unfold run.
  pose proof (interp_fetchAllCompaniesHandler encode (handle rejects sch)
                (wrapResponseWriter new_ResponseWriter) r healthy w)
    as (_ & _ & Hw).
  split_and!.
  - unfold fetchAllCompaniesHandler. rewrite interp_mbind.
    pose proof (run_FetchAllCompanies_coll rejects sch w) as Hcoll.
    unfold run, coll_of in Hcoll.
    destruct (interp (handle rejects sch) FetchAllCompanies w)
      as [[[companies err] w1] tr1]. simpl in Hcoll. cbv beta iota zeta.
    destruct err as [e|].
    + destruct (interp_send_and_return encode (handle rejects sch)
        (wrapResponseWriter new_ResponseWriter) StatusInternalServerError
        {| Success := false; Message := "Failed to fetch companies: " +:+ Error e;
           Data := None |} healthy w1) as (w' & tr & Heq & _).
      revert Heq. unfold sendResponse.
      destruct (encode _); simpl; intros [= _ <- _]; by simpl.
    + destruct (interp_send_and_return encode (handle rejects sch)
        (wrapResponseWriter new_ResponseWriter) StatusOK
        {| Success := true; Message := "Companies fetched successfully";
           Data := Some (DataCompanies companies) |} healthy w1)
        as (w' & tr & Heq & _).
      revert Heq. unfold sendResponse.
      destruct (encode _); simpl; intros [= _ <- _]; by simpl.
  - rewrite Hw. rewrite <- (FetchAllCompanies_ok_iff rejects sch w).
    unfold run, value_of.
    destruct (interp (handle rejects sch) FetchAllCompanies w).1.1 as [cs [e|]];
      rewrite status_sent; simpl; by split.
  - intros Hdec. rewrite Hw.
    destruct (run_FetchAllCompanies rejects sch w Hdec)
      as (sorted & Hperm & Hsorted & Hval).
    unfold run, value_of in Hval. rewrite Hval.
    exists (company_of <$> sorted). split_and!.
    + by rewrite Hperm.
    + apply Sorted_decoded; [by rewrite Hperm | done].
    + apply Body_sent.
Qed.
End serving_store.

(** ** Instances *)

(** The hypotheses of the instances, on concrete data. *)
Ltac index_on_name :=
  let k := fresh "k" in let Hk := fresh "Hk" in
  intros k Hk; vm_compute in Hk;
  repeat (apply elem_of_cons in Hk as [Hk|Hk]; [exact Hk|]);
  by apply elem_of_nil in Hk.

Ltac all_decodable := repeat constructor; eexists; reflexivity.

Ltac each_of H :=
  repeat (apply elem_of_cons in H as [->|H]); [..|by apply elem_of_nil in H].

Lemma written_record_is_read_back_witness :
  let w := world_of [company_doc B_z] ["name"] in
  let written := (run accept_all reversed (ProcessBatch [A_x; C_u]) w).1.2 in
  ∃ fetched, value_of (run accept_all in_order FetchAllCompanies written)
             = (fetched, None) ∧ C_u ∈ fetched.
Proof.
  intros w.
  apply (written_record_is_read_back accept_all reversed in_order w [A_x; C_u] C_u).
  - index_on_name.
  - all_decodable.
  - right. left.
  - reflexivity.
  - intros r' Hr' Hn. each_of Hr'; [discriminate Hn | reflexivity].
Defined.

Lemma ProcessBatch_leaves_other_names_witness :
  let w := world_of [company_doc B_z; company_doc A_x] ["name"] in
  docs_of (run accept_all reversed (ProcessBatch [A_y; C_u]) w) !! 0%nat
  = Some (company_doc B_z).
Proof.
  intros w.
  apply (ProcessBatch_leaves_other_names accept_all reversed w [A_y; C_u] 0
           (company_doc B_z)).
  - reflexivity.
  - intros r Hr Hn. each_of Hr; vm_compute in Hn; discriminate Hn.
Defined.

Lemma history_never_deletes_witness :
  let w := world_of [company_doc A_x] ["name"] in
  let ops := [OpProcessBatch [A_y; B_z] reversed; OpUpdateTreatedField "A";
              OpFetchAllCompanies] in
  (length (docs (coll w)) ≤ length (docs (coll (history accept_all w ops))))%nat ∧
  ∀ n, present n (coll w) → present n (coll (history accept_all w ops)).
Proof.
  intros w ops. apply (history_never_deletes accept_all w ops). index_on_name.
Defined.

Lemma ProcessBatch_count_bounds_witness :
  let r := run rejects_B in_order (ProcessBatch [A_x; B_z; C_u]) empty_world in
  0 ≤ (value_of r).1 ≤ 3 ∧ (is_Some (value_of r).2 → (value_of r).1 = 0).
Proof.
  intros r.
  apply (ProcessBatch_count_bounds rejects_B in_order empty_world [A_x; B_z; C_u]).
  reflexivity.
Defined.

Lemma ProcessBatch_new_names_witness :
  let w := world_of [company_doc B_z] ["name"] in
  let r := run accept_all reversed (ProcessBatch [A_x; C_u]) w in
  value_of r = (2, None) ∧
  docs_of r ≡ₚ [company_doc B_z; company_doc A_x; company_doc C_u].
Proof.
  intros w.
  apply (ProcessBatch_new_names accept_all reversed w [A_x; C_u]).
  - index_on_name.
  - reflexivity.
  - apply (bool_decide_unpack _). vm_compute. exact I.
  - intros r Hr (d & Hd & Hn). unfold w, world_of in Hd. simpl in Hd.
    apply list_elem_of_singleton in Hd as ->. rewrite company_doc_name in Hn.
    each_of Hr; discriminate Hn.
  - reflexivity.
Defined.


Lemma UpdateTreatedField_failure_stops_at_the_update_witness :
  let w := world_of [company_doc A_x] ["name"] in
  let out := interp acknowledges_late (UpdateTreatedField "A") w in
  out.1.1 = Some "failed to update treated field: context deadline exceeded" ∧
  out.2 = [Called (UpdateOne {[ "name" := VString "A" ]}
                             {[ "$set" := {[ "treated" := VBool true ]} ]})] ∧
  out.1.2 = (acknowledges_late _
               (UpdateOne {[ "name" := VString "A" ]}
                          {[ "$set" := {[ "treated" := VBool true ]} ]}) w).2 ∧
  cursor_All (docs (coll out.1.2)) = inr [mkCompany "A" "x" true].
Proof.
  intros w out. split; [by_compute|].
  destruct (UpdateTreatedField_failure_stops_at_the_update
              World acknowledges_late w "A") as [Htrace Hstate].
  { vm_compute. eexists. reflexivity. }
  split; [exact Htrace|]. split; [exact Hstate|]. by_compute.
Defined.

Lemma NewBatchProcessor_again_witness :
  let w := world_of [company_doc A_x; company_doc B_z] [] in
  let first := run accept_all in_order (NewBatchProcessor "mongodb://localhost:27017" 100 4) w in
  let second := run accept_all in_order (NewBatchProcessor "mongodb://localhost:27017" 100 4)
                  first.1.2 in
  value_of second = None ∧ second.1.2 = first.1.2.
Proof.
  intros w.
  apply (NewBatchProcessor_again accept_all in_order in_order
           "mongodb://localhost:27017" "mongodb://localhost:27017" 100 100 4 4 w).
  by_compute.
Defined.

Lemma routed_request_answered_once_witness :
  answered_once encode_all
    (interp (handle accept_all in_order)
       (loggingMiddleware (batchUploadHandler encode_all) 5 new_ResponseWriter
          (POST_batch [A_x; B_z]) true) empty_world).1.1.1.
Proof.
  apply (routed_request_answered_once encode_all (handle accept_all in_order)
           5 (POST_batch [A_x; B_z]) true).
  reflexivity.
Defined.

Lemma access_log_matches_response_witness :
  let out := interp unreachable
               (loggingMiddleware (healthCheckHandler encode_all) 7
                  new_ResponseWriter GET_health true) () in
  ∃ code handled,
    WroteHeader (inner out.1.1.1) = Some code ∧
    out.2 = Called (Printf "Started %s %s" [AStr "GET"; AStr "/health"])
            :: handled ++
            [Called (Printf "Completed %s %s [%d] in %v"
                       [AStr "GET"; AStr "/health"; AInt code; AInt 7])].
Proof.
  apply (access_log_matches_response encode_all unreachable 7 GET_health true).
  reflexivity.
Defined.

Lemma batchUploadHandler_refuses_before_the_store_witness :
  let out := interp (handle accept_all in_order)
               (batchUploadHandler encode_all
                  (wrapResponseWriter new_ResponseWriter)
                  (POST_batch [A_x]) false) empty_world in
  store_calls out.2 = [] ∧ out.1.1.2 = false ∧
  status out.1.1.1 = StatusServiceUnavailable.
Proof.
  apply (batchUploadHandler_refuses_before_the_store encode_all
           (handle accept_all in_order) (wrapResponseWriter new_ResponseWriter)
           (POST_batch [A_x]) false empty_world).
  by left.
Defined.

Lemma batchUploadHandler_reports_ProcessBatch_witness :
  let out := interp (handle accept_all in_order)
               (batchUploadHandler encode_all
                  (wrapResponseWriter new_ResponseWriter)
                  (POST_batch [A_x; B_z]) true) empty_world in
  status out.1.1.1 = StatusOK ∧
  Body (inner out.1.1.1)
  = [{| Success := true; Message := "Batch processed successfully";
        Data := Some (DataProcessedCount 2) |}].
Proof.
  intros out.
  destruct (batchUploadHandler_reports_ProcessBatch encode_all
              (handle accept_all in_order) (POST_batch [A_x; B_z])
              {| Companies := [A_x; B_z] |} empty_world eq_refl)
    as (_ & _ & _ & Hok & Hbody); [done|].
  split.
  - apply Hok. by_compute.
  - etransitivity; [apply Hbody; by_compute | reflexivity].
Defined.

Lemma failed_probe_blocks_batches_witness :
  let probe := interp unreachable
                 (healthCheckHandler encode_all
                    (wrapResponseWriter new_ResponseWriter) GET_health true) () in
  let out := interp unreachable
               (batchUploadHandler encode_all
                  (wrapResponseWriter new_ResponseWriter) (POST_batch [A_x])
                  probe.1.1.2) probe.1.2 in
  status out.1.1.1 = StatusServiceUnavailable ∧
  store_calls out.2 = [] ∧ out.1.1.2 = false.
Proof.
  apply (failed_probe_blocks_batches encode_all unreachable
           (wrapResponseWriter new_ResponseWriter)
           (wrapResponseWriter new_ResponseWriter) GET_health (POST_batch [A_x])
           true ()).
  by eexists.
Defined.

Lemma updateTreatedHandler_ok_iff_untreated_witness :
  let w := world_of [company_doc A_x; company_doc B_z] ["name"] in
  let out := run accept_all in_order
               (updateTreatedHandler encode_all
                  (wrapResponseWriter new_ResponseWriter) (PUT_treated "A") true) w in
  status out.1.1.1 = StatusOK.
Proof.
  intros w out.
  assert (only_name_index (coll w)) as Hidx by index_on_name.
  destruct (updateTreatedHandler_ok_iff_untreated encode_all accept_all in_order w
              (wrapResponseWriter new_ResponseWriter) (PUT_treated "A") true
              Hidx eq_refl) as [_ [_ Hok]]; [done|].
  apply Hok. exists (company_doc A_x), []. split; [reflexivity|].
  rewrite company_doc_treated. discriminate.
Defined.
